(** * Metrics collection and hot-reload configuration of the training toolkit

    A shallow embedding of [toolkit/metrics_collector.py] (the class
    [LossCollector] with its write buffer, and the registry
    [MetricsManager]) and of [toolkit/dynamic_config.py] (the class
    [DynamicConfig]), followed by the properties of these programs.

    Python objects that the code inspects at run time are values of
    [Py.value]; dictionaries keyed by strings are finite maps; the SQLite
    table [TrainingMetrics], whose primary key is [id], is a finite map from
    ids to rows; the file system is a finite map from paths to files. *)

From Stdlib Require Import ZArith Ascii Decimal DecimalString DecimalZ DecimalPos.
From Stdlib Require String.
From Stdlib Require Import Floats.SpecFloat.
From stdpp Require Import gmap strings list.

Local Open Scope Z_scope.

(** ** Python values *)

Module Py.

(** The run-time values the two modules look at.  [PObj] stands for any
    object of another class (a tensor, a list, ...): every [isinstance] test
    of the code fails on it.  Floats are IEEE 754 binary64 values.  A string
    is the sequence of its characters, so that [len] is [String.length]. *)
Inductive value :=
  | PNone
  | PBool (b : bool)
  | PInt (z : Z)
  | PFloat (f : spec_float)
  | PStr (s : string)
  | PObj.

(** The exception classes the code names or can meet. *)
Inductive exn :=
  | OverflowError
  | ValueError
  | TypeError
  | AttributeError.

Inductive result (A : Type) :=
  | Ok (a : A)
  | Raise (e : exn).
Arguments Ok {A} a.
Arguments Raise {A} e.

(** [isinstance(v, int)]: [bool] is a subclass of [int]. *)
Definition isinstance_int (v : value) : bool :=
  match v with
  | PBool _ | PInt _ => true
  | _ => false
  end.

(** [isinstance(v, float)]. *)
Definition isinstance_float (v : value) : bool :=
  match v with
  | PFloat _ => true
  | _ => false
  end.

(** [isinstance(v, str)]. *)
Definition isinstance_str (v : value) : bool :=
  match v with
  | PStr _ => true
  | _ => false
  end.

(** [isinstance(v, (int, float))]. *)
Definition isinstance_number (v : value) : bool :=
  isinstance_int v || isinstance_float v.

(** [v != v] on a float: true exactly on a NaN. *)
Definition float_ne_self (f : spec_float) : bool := negb (SFeqb f f).

(** [isinstance(v, float) and (v != v)]. *)
Definition is_float_nan (v : value) : bool :=
  match v with
  | PFloat f => float_ne_self f
  | _ => false
  end.

(** The guard of every numeric branch of [log_step_metrics]:
    [isinstance(v, (int, float)) and not (isinstance(v, float) and (v != v))]. *)
Definition is_plain_number (v : value) : bool :=
  isinstance_number v && negb (is_float_nan v).

Definition prec : Z := 53.
Definition emax : Z := 1024.

(** [float(z)] for an [int]: the nearest binary64 value (ties to even);
    an integer too large for a finite float raises [OverflowError]. *)
Definition float_of_int (z : Z) : result spec_float :=
  match binary_normalize prec emax z 0 false with
  | S754_infinity _ => Raise OverflowError
  | f => Ok f
  end.

(** [float(v)] where the code calls it: on a value that passed
    [isinstance(v, (int, float))].  No other value reaches the call; on those
    the definition answers [TypeError]. *)
Definition float_of_number (v : value) : result spec_float :=
  match v with
  | PBool b => float_of_int (if b then 1 else 0)
  | PInt z => float_of_int z
  | PFloat f => Ok f
  | _ => Raise TypeError
  end.

(** [str(z)] for an [int], as an f-string renders it. *)
Definition str_int (z : Z) : string := NilZero.string_of_int (Z.to_int z).

(** [s.replace(a, b)] for one-character [a] and [b]. *)
Fixpoint replace (a b : ascii) (s : string) : string :=
  match s with
  | EmptyString => EmptyString
  | String c s' => String (if Ascii.eqb c a then b else c) (replace a b s')
  end.

(** [v > 0] for a value that passed [isinstance(v, int)]. *)
Definition int_gt_zero (v : value) : bool :=
  match v with
  | PBool b => b
  | PInt z => 0 <? z
  | _ => false
  end.

End Py.

(** ** The metric buffer and its flush: class [LossCollector] *)

Module Collector.
Import Py.

(** The four strings the code writes into the [metric_type] column. *)
Inductive metric_type := Loss | LearningRate | System | Info.

Definition metric_type_str (t : metric_type) : string :=
  match t with
  | Loss => "loss"
  | LearningRate => "learning_rate"
  | System => "system"
  | Info => "info"
  end.

Global Instance metric_type_eq_dec : EqDecision metric_type.
Proof. solve_decision. Defined.

(** The [value] entry of an event: [float(value)] in the numeric branches,
    the integer [hash(value) % 1000000] in the string branch. *)
Inductive number :=
  | NFloat (f : spec_float)
  | NInt (z : Z).

(** One dictionary appended to [self.buffer]; it becomes one row of the
    table [TrainingMetrics]. *)
Record event := Event {
  ev_id : string;
  ev_job_id : string;
  ev_step : Z;
  ev_timestamp : string;
  ev_metric_type : metric_type;
  ev_metric_name : string;
  ev_value : number
}.

(** [key.replace('/', '_').replace(' ', '_').replace('-', '_')] *)
Definition safe_key (key : string) : string :=
  replace "-" "_" (replace " " "_" (replace "/" "_" key)).

(** The four f-strings that build the [id] of an event. *)
Definition id_loss (job : string) (step : Z) (key : string) : string :=
  job +:+ "_" +:+ str_int step +:+ "_loss_" +:+ safe_key key.

Definition id_lr (job : string) (step : Z) : string :=
  job +:+ "_" +:+ str_int step +:+ "_lr".

Definition id_system (job : string) (step : Z) (key : string) : string :=
  job +:+ "_" +:+ str_int step +:+ "_system_" +:+ key.

Definition id_info (job : string) (step : Z) (key : string) : string :=
  job +:+ "_" +:+ str_int step +:+ "_info_" +:+ key.

(** The instance attributes of a [LossCollector].  The lock is held for
    the whole body of [log_step_metrics] and of [cleanup], so a call is one
    transition of this state. *)
Record collector := Collector {
  job_id : string;
  db_path : string;
  buffer : list event;
  buffer_size : nat
}.

Definition set_buffer (c : collector) (b : list event) : collector :=
  {| job_id := job_id c; db_path := db_path c; buffer := b;
     buffer_size := buffer_size c |}.

(** How far the body of the [try] in [flush] gets: all of it, or up to the
    statement that raises. *)
Inductive write_outcome :=
  | WriteOk
  | FailConnect
  | FailExecute
  | FailCommit
  | FailClose.

(** The rows are durable once [conn.commit()] has returned. *)
Definition committed (o : write_outcome) : bool :=
  match o with
  | WriteOk | FailClose => true
  | _ => false
  end.

(** [self.buffer.clear()] is the last statement of the [try]. *)
Definition completed (o : write_outcome) : bool :=
  match o with
  | WriteOk => true
  | _ => false
  end.

(** The table [TrainingMetrics] of one database file, keyed by its primary
    key, and the record of every transaction [flush] opened on it: the batch
    handed to [executemany] and how the transaction ended. *)
Record database := Database {
  rows : gmap string event;
  attempts : list (list event * write_outcome)
}.

Definition empty_db : database := {| rows := ∅; attempts := [] |}.

(** [INSERT OR REPLACE] of one row, and [executemany] over a batch. *)
Definition upsert (r : gmap string event) (e : event) : gmap string event :=
  <[ev_id e := e]> r.

Definition upsert_all (batch : list event) (r : gmap string event)
  : gmap string event :=
  foldl upsert r batch.

(** [__init__], with [db_path] already resolved ([db_path or default]). *)
Definition init (job path : string) : collector :=
  {| job_id := job; db_path := path; buffer := []; buffer_size := 10 |}.

(** [flush]: nothing on an empty buffer; otherwise one transaction with
    the whole buffer, and the buffer is cleared when the [try] body runs to
    its end.  The [except] branch only prints. *)
Definition flush (c : collector) (db : database) (o : write_outcome)
  : collector * database :=
  match buffer c with
  | [] => (c, db)
  | _ :: _ =>
    let db' :=
      {| rows := if committed o then upsert_all (buffer c) (rows db)
                 else rows db;
         attempts := attempts db ++ [(buffer c, o)] |} in
    (if completed o then set_buffer c [] else c, db')
  end.

(** [cleanup]: [flush] under the lock.  The finalizer [__del__] calls
    [cleanup] when the interpreter collects the object; collection is not
    part of this model. *)
Definition cleanup (c : collector) (db : database) (o : write_outcome)
  : collector * database :=
  flush c db o.

(** The arguments of one call of [log_step_metrics], with the reading of
    [datetime.now().isoformat()] taken in that call. *)
Record report := Report {
  step : Z;
  loss_dict : list (string * value);
  learning_rate : value;
  kwargs : list (string * value);
  timestamp : string
}.

Section WithHash.

(** Python's built-in [hash] on strings. *)
Variable hash : string → Z.

(** Body of the loop over [loss_dict.items()]: the events it appends. *)
Definition loss_item (job : string) (r : report) (kv : string * value)
  : result (list event) :=
  let '(key, v) := kv in
  if is_plain_number v then
    match float_of_number v with
    | Ok f => Ok [Event (id_loss job (step r) key) job (step r) (timestamp r)
                        Loss key (NFloat f)]
    | Raise e => Raise e
    end
  else Ok [].

(** The learning-rate statement. *)
Definition lr_item (job : string) (r : report) : result (list event) :=
  let v := learning_rate r in
  if is_plain_number v then
    match float_of_number v with
    | Ok f => Ok [Event (id_lr job (step r)) job (step r) (timestamp r)
                        LearningRate "lr" (NFloat f)]
    | Raise e => Raise e
    end
  else Ok [].

(** [except (ValueError, TypeError): continue] *)
Definition except_value_type (x : result (list event)) : result (list event) :=
  match x with
  | Raise ValueError | Raise TypeError => Ok []
  | _ => x
  end.

(** Body of the loop over [kwargs.items()]. *)
Definition kwargs_item (job : string) (r : report) (kv : string * value)
  : result (list event) :=
  let '(key, v) := kv in
  match v with
  | PNone => Ok []
  | _ =>
    except_value_type
      (if is_plain_number v then
         match float_of_number v with
         | Ok f => Ok [Event (id_system job (step r) key) job (step r)
                             (timestamp r) System key (NFloat f)]
         | Raise e => Raise e
         end
       else
         match v with
         | PStr s =>
           if (String.length s <? 100)%nat then
             Ok [Event (id_info job (step r) key) job (step r) (timestamp r)
                       Info key (NInt (hash s mod 1000000))]
           else Ok []
         | _ => Ok []
         end)
  end.

(** A [for] loop whose body appends to the buffer: it stops at the first
    exception, and what was appended before stays in the buffer. *)
Fixpoint for_each {A} (body : A → result (list event)) (items : list A)
    (buf : list event) : list event * option exn :=
  match items with
  | [] => (buf, None)
  | x :: rest =>
    match body x with
    | Ok evs => for_each body rest (buf ++ evs)
    | Raise e => (buf, Some e)
    end
  end.

(** The three appending phases of [log_step_metrics], before the threshold
    test: the buffer they leave and the exception that ended them, if any. *)
Definition append_metrics (job : string) (r : report) (buf : list event)
  : list event * option exn :=
  match for_each (loss_item job r) (loss_dict r) buf with
  | (b1, Some e) => (b1, Some e)
  | (b1, None) =>
    match lr_item job r with
    | Raise e => (b1, Some e)
    | Ok evs => for_each (kwargs_item job r) (kwargs r) (b1 ++ evs)
    end
  end.

(** [log_step_metrics]: append, then flush when the buffer has reached
    [buffer_size].  An exception leaves the [with] block before the test. *)
Definition log_step_metrics (c : collector) (db : database) (r : report)
    (o : write_outcome) : collector * database * result unit :=
  match append_metrics (job_id c) r (buffer c) with
  | (b, Some e) => (set_buffer c b, db, Raise e)
  | (b, None) =>
    let c' := set_buffer c b in
    if (buffer_size c' <=? length b)%nat then
      let '(c'', db') := flush c' db o in (c'', db', Ok tt)
    else (c', db, Ok tt)
  end.

End WithHash.

End Collector.

(** ** The registry of collectors: class [MetricsManager] *)

Module Manager.
Import Py Collector.

(** The class attribute [_collectors] maps a job id to a [LossCollector]
    object.  Objects live in a heap and are named by their address, so that
    "the same instance" is equality of addresses; the heap only grows.  The
    databases are keyed by the path of their file; a file without the table
    holds no row, and creating the table ([_ensure_table_exists]) adds none. *)
Record world := World {
  collectors : gmap string nat;
  heap : list collector;
  dbs : gmap string database
}.

Definition empty_world : world :=
  {| collectors := ∅; heap := []; dbs := ∅ |}.

Definition db_at (w : world) (path : string) : database :=
  default empty_db (dbs w !! path).

Section WithDefaultPath.

(** The result of [_get_default_db_path()]. *)
Variable default_db_path : string.

(** [db_path or self._get_default_db_path()]: [None] and the empty string
    are falsy. *)
Definition resolve_db_path (db_path : option string) : string :=
  match db_path with
  | None => default_db_path
  | Some EmptyString => default_db_path
  | Some p => p
  end.

(** [LossCollector(job_id, db_path)]: a new object at a fresh address. *)
Definition construct (w : world) (job : string) (db_path : option string)
  : world * nat :=
  ({| collectors := collectors w;
      heap := heap w ++ [Collector.init job (resolve_db_path db_path)];
      dbs := dbs w |},
   length (heap w)).

(** [cls._collectors[job_id] = obj] *)
Definition store (w : world) (job : string) (l : nat) : world :=
  {| collectors := <[job := l]> (collectors w); heap := heap w; dbs := dbs w |}.

(** [get_collector]: the address it returns; [None] stands for the
    [KeyError] of the final subscript, which a sequential call never meets. *)
Definition get_collector (w : world) (job : string) (db_path : option string)
  : world * option nat :=
  let w' :=
    match collectors w !! job with
    | None => let '(w1, l) := construct w job db_path in store w1 job l
    | Some _ => w
    end in
  (w', collectors w' !! job).

(** [cleanup_collector]: [cleanup()] on the registered object, then
    [del cls._collectors[job_id]]; nothing for an unregistered id. *)
Definition cleanup_collector (w : world) (job : string) (o : write_outcome)
  : world :=
  match collectors w !! job with
  | None => w
  | Some l =>
    match heap w !! l with
    | None => w
    | Some c =>
      let '(c', db') := Collector.cleanup c (db_at w (db_path c)) o in
      {| collectors := delete job (collectors w);
         heap := <[l := c']> (heap w);
         dbs := <[db_path c := db']> (dbs w) |}
    end
  end.

(** *** Two threads inside [get_collector]

    [get_collector] takes no lock.  Between two of its dictionary
    operations and around the constructor call the interpreter may switch
    threads, so a call is four atomic actions: the membership test, the
    constructor, the store into the dictionary, and the final subscript. *)
Inductive pc :=
  | AtTest
  | AtConstruct
  | AtStore (l : nat)
  | AtReturn
  | Returned (l : option nat).

Record thread := Thread {
  t_job : string;
  t_db_path : option string;
  t_pc : pc
}.

Definition at_pc (t : thread) (p : pc) : thread :=
  {| t_job := t_job t; t_db_path := t_db_path t; t_pc := p |}.

Definition call (job : string) (db_path : option string) : thread :=
  {| t_job := job; t_db_path := db_path; t_pc := AtTest |}.

(** One atomic action of a thread. *)
Definition thread_step (w : world) (t : thread) : world * thread :=
  match t_pc t with
  | AtTest =>
    match collectors w !! t_job t with
    | None => (w, at_pc t AtConstruct)
    | Some _ => (w, at_pc t AtReturn)
    end
  | AtConstruct =>
    let '(w', l) := construct w (t_job t) (t_db_path t) in
    (w', at_pc t (AtStore l))
  | AtStore l => (store w (t_job t) l, at_pc t AtReturn)
  | AtReturn => (w, at_pc t (Returned (collectors w !! t_job t)))
  | Returned _ => (w, t)
  end.

(** The shared world with the threads running in it. *)
Definition config : Type := world * list thread.

(** The scheduler lets thread [i] take one action. *)
Definition sched_step (cfg : config) (i : nat) : config :=
  match snd cfg !! i with
  | None => cfg
  | Some t =>
    let '(w', t') := thread_step (fst cfg) t in (w', <[i := t']> (snd cfg))
  end.

Definition run (schedule : list nat) (cfg : config) : config :=
  foldl sched_step cfg schedule.

(** What thread [i] returned, once it has. *)
Definition returned (cfg : config) (i : nat) : option (option nat) :=
  match snd cfg !! i with
  | Some t => match t_pc t with Returned r => Some r | _ => None end
  | None => None
  end.

(** Thread [i] runs its whole call without interruption. *)
Definition whole_call (i : nat) : list nat := [i; i; i; i].

End WithDefaultPath.

End Manager.

(** ** The hot-reload configuration: class [DynamicConfig] *)

Module DynamicConfig.
Import Py.

(** [os.path.join(a, b)] on a POSIX system. *)
Definition startswith_sep (s : string) : bool :=
  match s with
  | String c _ => Ascii.eqb c "/"
  | EmptyString => false
  end.

Fixpoint endswith_sep (s : string) : bool :=
  match s with
  | EmptyString => false
  | String c EmptyString => Ascii.eqb c "/"
  | String _ s' => endswith_sep s'
  end.

Definition path_join (a b : string) : string :=
  if startswith_sep b then b
  else match a with
       | EmptyString => b
       | _ => if endswith_sep a then a +:+ b else a +:+ "/" +:+ b
       end.

(** What [open] followed by [yaml.safe_load] makes of a file: an exception
    (unreadable or ill-formed), a falsy object that is no mapping (the [None]
    of an empty document, [0], an empty list, ...), a mapping, or a truthy
    object that is no mapping (a scalar, a non-empty list). *)
Inductive yaml_load :=
  | YamlError
  | YamlFalsy
  | YamlDict (d : gmap string value)
  | YamlOther.

Record file := File {
  mtime : spec_float;
  content : yaml_load
}.

Inductive fs_op :=
  | OpExists (p : string)
  | OpGetmtime (p : string)
  | OpRead (p : string)
  | OpWrite (p : string).

(** The file system: its files, the paths that [open(p, 'w')] refuses
    (missing directory, no permission), the clock ([time.time()], also the
    modification time a write stamps on a file), and the calls made so far. *)
Record filesystem := Filesystem {
  files : gmap string file;
  unwritable : gset string;
  clock : spec_float;
  trace : list fs_op
}.

Definition log (fs : filesystem) (op : fs_op) : filesystem :=
  {| files := files fs; unwritable := unwritable fs; clock := clock fs;
     trace := trace fs ++ [op] |}.

(** [os.path.exists(p)] *)
Definition exists_ (fs : filesystem) (p : string) : bool * filesystem :=
  (bool_decide (is_Some (files fs !! p)), log fs (OpExists p)).

(** The object a configuration variable holds: a dictionary, or the truthy
    object of another class that [yaml.safe_load] returned. *)
Inductive config :=
  | CDict (d : gmap string value)
  | COther.

Record dynamic_config := DynamicConfig {
  job_name : string;
  save_root : string;
  config_file : string;
  last_modified : spec_float;
  config_cache : config
}.

(** [save_config]: [yaml.dump] into the file; a failure to open it is only
    printed.  The dictionaries the code dumps are read back unchanged by
    [yaml.safe_load]. *)
Definition save_config (s : dynamic_config) (fs : filesystem)
    (d : gmap string value) : filesystem :=
  let p := config_file s in
  let fs := log fs (OpWrite p) in
  if bool_decide (p ∈ unwritable fs) then fs
  else {| files := <[p := File (clock fs) (YamlDict d)]> (files fs);
          unwritable := unwritable fs; clock := clock fs; trace := trace fs |}.

Definition default_config (now : spec_float) : gmap string value :=
  <["sample_every" := PInt 100]>
  (<["save_every" := PNone]>
  (<["log_every" := PNone]>
  (<["last_updated" := PFloat now]> ∅))).

(** [ensure_config_file] *)
Definition ensure_config_file (s : dynamic_config) (fs : filesystem)
  : filesystem :=
  let '(ex, fs) := exists_ fs (config_file s) in
  if ex then fs else save_config s fs (default_config (clock fs)).

(** [__init__] *)
Definition init (job_name save_root : string) (fs : filesystem)
  : dynamic_config * filesystem :=
  let s := {| job_name := job_name; save_root := save_root;
              config_file := path_join save_root "dynamic_config.yaml";
              last_modified := S754_zero false;
              config_cache := CDict ∅ |} in
  (s, ensure_config_file s fs).

(** [load_config]: [yaml.safe_load(f) or {}], and [{}] on any exception. *)
Definition load_config (s : dynamic_config) (fs : filesystem)
  : config * filesystem :=
  let p := config_file s in
  let '(ex, fs) := exists_ fs p in
  let fs := if ex then fs else ensure_config_file s fs in
  let fs := log fs (OpRead p) in
  match files fs !! p with
  | None => (CDict ∅, fs)
  | Some f =>
    match content f with
    | YamlError | YamlFalsy => (CDict ∅, fs)
    | YamlDict d => (CDict d, fs)
    | YamlOther => (COther, fs)
    end
  end.

Definition set_cache (s : dynamic_config) (m : spec_float) (c : config)
  : dynamic_config :=
  {| job_name := job_name s; save_root := save_root s;
     config_file := config_file s; last_modified := m; config_cache := c |}.

(** [check_and_update].  The [except] branch is reached when [getmtime]
    raises, that is when the file disappears after [exists] has answered; the
    file system modelled here does not change during a call, so the branch
    is written out but never taken. *)
Definition check_and_update (s : dynamic_config) (fs : filesystem)
  : config * dynamic_config * filesystem :=
  let p := config_file s in
  let '(ex, fs) := exists_ fs p in
  if negb ex then (CDict ∅, s, fs)
  else
    let fs := log fs (OpGetmtime p) in
    match files fs !! p with
    | None => (config_cache s, s, fs)
    | Some f =>
      let current_modified := mtime f in
      if SFleb current_modified (last_modified s) then (config_cache s, s, fs)
      else
        let '(new_config, fs) := load_config s fs in
        (new_config, set_cache s current_modified new_config, fs)
    end.

(** [config.get(key, default)]: only a dictionary has the method. *)
Definition config_get (c : config) (key : string) (default : value)
  : result value :=
  match c with
  | CDict d => Ok match d !! key with Some v => v | None => default end
  | COther => Raise AttributeError
  end.

(** [isinstance(v, int) and v > 0] *)
Definition positive_int (v : value) : bool :=
  isinstance_int v && int_gt_zero v.

(** [get_sample_every] *)
Definition get_sample_every (s : dynamic_config) (fs : filesystem)
    (default : value) : result value * dynamic_config * filesystem :=
  let '(config, s, fs) := check_and_update s fs in
  match config_get config "sample_every" default with
  | Raise e => (Raise e, s, fs)
  | Ok sample_every =>
    (Ok (if positive_int sample_every then sample_every else default), s, fs)
  end.

(** [get_save_every] *)
Definition get_save_every (s : dynamic_config) (fs : filesystem)
    (default : value) : result value * dynamic_config * filesystem :=
  let '(config, s, fs) := check_and_update s fs in
  match config_get config "save_every" default with
  | Raise e => (Raise e, s, fs)
  | Ok save_every =>
    (Ok match save_every with
        | PNone => default
        | _ => if positive_int save_every then save_every else default
        end, s, fs)
  end.

(** [get_log_every] *)
Definition get_log_every (s : dynamic_config) (fs : filesystem)
    (default : value) : result value * dynamic_config * filesystem :=
  let '(config, s, fs) := check_and_update s fs in
  match config_get config "log_every" default with
  | Raise e => (Raise e, s, fs)
  | Ok log_every =>
    (Ok match log_every with
        | PNone => default
        | _ => if positive_int log_every then log_every else default
        end, s, fs)
  end.

End DynamicConfig.

(** ** Further code of the two modules and of the command-line tool *)

(** *** [LossCollector]: the default database and the automatic metrics *)

Module AutoMetrics.
Import Py Collector.

(** [_get_default_db_path].  [project_root] is
    [os.path.dirname(os.path.dirname(os.path.abspath(__file__)))] and
    [path_exists] is [os.path.exists]. *)
Definition get_default_db_path (path_exists : string → bool)
    (project_root : string) : string :=
  let db_path := DynamicConfig.path_join project_root "aitk_db.db" in
  if negb (path_exists db_path) then
    let ui_db_path :=
      DynamicConfig.path_join (DynamicConfig.path_join project_root "ui")
        "aitk_db.db" in
    if path_exists ui_db_path then ui_db_path else db_path
  else db_path.



(** [flush] called again and again, each call with its own outcome. *)
Definition flush_all (c : collector) (db : database)
    (outcomes : list write_outcome) : collector * database :=
  foldl (λ st o, flush (fst st) (snd st) o) (c, db) outcomes.

End AutoMetrics.

(** *** [MetricsManager]: callers of the collectors, and [cleanup_all] *)

Module ManagerOps.
Import Py Collector Manager.

(** [collector.cleanup()] on the object at an address. *)
Definition cleanup_at (w : world) (l : nat) (o : write_outcome) : world :=
  match heap w !! l with
  | None => w
  | Some c =>
    let '(c', db') := Collector.cleanup c (db_at w (db_path c)) o in
    {| collectors := collectors w;
       heap := <[l := c']> (heap w);
       dbs := <[db_path c := db']> (dbs w) |}
  end.

(** [cleanup_all].  The finite map of the registry does not keep the
    order in which Python's dictionary yields its values, so the order is an
    argument: the registered job ids in that order, each with the outcome of
    the flush of its collector. *)
Definition cleanup_all (w : world) (order : list (string * write_outcome))
  : world :=
  let w' :=
    foldl (λ w jo,
             match collectors w !! fst jo with
             | Some l => cleanup_at w l (snd jo)
             | None => w
             end)
          w order in
  {| collectors := ∅; heap := heap w'; dbs := dbs w' |}.

(** [collector.log_step_metrics(...)] by a caller that holds the address
    of the collector; [None] when there is no object at the address. *)
Definition log_at (hash : string → Z) (w : world) (l : nat) (r : report)
    (o : write_outcome) : option (world * result unit) :=
  match heap w !! l with
  | None => None
  | Some c =>
    let '(c', db', res) :=
      log_step_metrics hash c (db_at w (db_path c)) r o in
    Some ({| collectors := collectors w;
             heap := <[l := c']> (heap w);
             dbs := <[db_path c := db']> (dbs w) |}, res)
  end.

(** The worlds a program can reach from the empty registry with the
    operations of the two classes. *)
Inductive reachable (hash : string → Z) (dp : string) : world → Prop :=
  | reach_empty : reachable hash dp empty_world
  | reach_get w job db_path :
      reachable hash dp w →
      reachable hash dp (fst (get_collector dp w job db_path))
  | reach_cleanup w job o :
      reachable hash dp w → reachable hash dp (cleanup_collector w job o)
  | reach_cleanup_all w order :
      reachable hash dp w → reachable hash dp (cleanup_all w order)
  | reach_log w l r o w' res :
      reachable hash dp w → log_at hash w l r o = Some (w', res) →
      reachable hash dp w'.

End ManagerOps.

(** *** [DynamicConfig]: the setter *)

Module DynamicConfigUpdate.
Import Py DynamicConfig.

(** [v <= 0] for a value that passed [isinstance(v, int)]. *)
Definition int_le_zero (v : value) : bool :=
  match v with
  | PBool b => negb b
  | PInt z => z <=? 0
  | _ => false
  end.

(** [update_sample_every].  [config['sample_every'] = ...] needs a
    dictionary: on the object of another class that [load_config] can return
    the assignment raises [TypeError]. *)
Definition update_sample_every (s : dynamic_config) (fs : filesystem)
    (new_value : value) : result unit * filesystem :=
  if negb (isinstance_int new_value) || int_le_zero new_value then
    (Raise ValueError, fs)
  else
    let '(config, fs) := load_config s fs in
    match config with
    | COther => (Raise TypeError, fs)
    | CDict d =>
      let d := <["sample_every" := new_value]> d in
      let d := <["last_updated" := PFloat (clock fs)]> d in
      (Ok tt, save_config s fs d)
    end.

(** [get_config_file_path] *)
Definition get_config_file_path (s : dynamic_config) : string :=
  config_file s.

End DynamicConfigUpdate.

(** *** The command-line tool: class [DynamicConfigCLI]

    The tool reads and writes the file of a job from outside the training
    process.  [job_dir] and [config_file] are the paths
    [self.training_folder / job_name] and [job_dir / "dynamic_config.yaml"]. *)

Module ConfigCLI.
Import Py DynamicConfig.

(** [c.lower()] on an ASCII letter. *)
Definition lower_char (c : ascii) : ascii :=
  let n := nat_of_ascii c in
  if ((65 <=? n) && (n <=? 90))%nat then ascii_of_nat (n + 32) else c.

(** [value.lower()] *)
Fixpoint lower (s : string) : string :=
  match s with
  | EmptyString => EmptyString
  | String c s' => String (lower_char c) (lower s')
  end.

Definition valid_keys : list string :=
  ["sample_every"; "save_every"; "log_every"].

Section WithEnvironment.

(** [int(value)] on a string, [None] for its [ValueError]; and
    [path.exists()] on a directory. *)
Variable int_of_str : string → option Z.
Variable dir_exists : string → bool.

(** [get_config]: [None], or [yaml.safe_load(f) or {}]. *)
Definition get_config (config_file : string) (fs : filesystem)
  : option config * filesystem :=
  let '(ex, fs) := exists_ fs config_file in
  if negb ex then (None, fs)
  else
    let fs := log fs (OpRead config_file) in
    match files fs !! config_file with
    | None => (None, fs)
    | Some f =>
      match content f with
      | YamlError => (None, fs)
      | YamlFalsy => (Some (CDict ∅), fs)
      | YamlDict d => (Some (CDict d), fs)
      | YamlOther => (Some COther, fs)
      end
    end.

(** [save_config]: stamps [last_updated] and writes; [False] when the job
    directory is missing or the file cannot be written. *)
Definition save_config (job_dir config_file : string) (fs : filesystem)
    (d : gmap string value) : bool * filesystem :=
  let fs := log fs (OpExists job_dir) in
  if negb (dir_exists job_dir) then (false, fs)
  else
    let d := <["last_updated" := PFloat (clock fs)]> d in
    let fs := log fs (OpWrite config_file) in
    if bool_decide (config_file ∈ unwritable fs) then (false, fs)
    else (true,
          {| files := <[config_file := File (clock fs) (YamlDict d)]> (files fs);
             unwritable := unwritable fs; clock := clock fs;
             trace := trace fs |}).

(** The value [set_config] makes of its argument: [Some None] for the
    words that mean null, [Some] of a positive integer, or nothing when the
    argument is rejected. *)
Definition process_value (value : string) : option Py.value :=
  if bool_decide (lower value ∈ ["none"; "null"; ""]) then Some PNone
  else
    match int_of_str value with
    | Some z => if z <=? 0 then None else Some (PInt z)
    | None => None
    end.

(** [set_config].  [config.get(key, 'not set')] raises [AttributeError]
    when the file holds a truthy object that is no dictionary. *)
Definition set_config (job_dir config_file : string) (fs : filesystem)
    (key value : string) : result unit * filesystem :=
  if negb (bool_decide (key ∈ valid_keys)) then (Ok tt, fs)
  else
    let '(got, fs) := get_config config_file fs in
    let config := match got with Some c => c | None => CDict ∅ end in
    match process_value value with
    | None => (Ok tt, fs)
    | Some processed_value =>
      match config with
      | COther => (Raise AttributeError, fs)
      | CDict d =>
        (Ok tt,
         snd (save_config job_dir config_file fs
                (<[key := processed_value]> d)))
      end
    end.

(** The dictionary [default_config] of [create_default_config]. *)
Definition cli_default_config : gmap string value :=
  <["sample_every" := PInt 100]>
  (<["save_every" := PNone]>
  (<["log_every" := PNone]> ∅)).

(** [create_default_config] *)
Definition create_default_config (job_dir config_file : string)
    (fs : filesystem) : filesystem :=
  let fs := log fs (OpExists job_dir) in
  if negb (dir_exists job_dir) then fs
  else snd (save_config job_dir config_file fs cli_default_config).

End WithEnvironment.

End ConfigCLI.

(** ** Notions used to state the properties of the collector *)

Module CollectorSpec.
Import Py Collector.

(** The (job_id, step, metric_type, metric_name) tuple of an event. *)
Definition tuple_of (e : event) : string * Z * metric_type * string :=
  (ev_job_id e, ev_step e, ev_metric_type e, ev_metric_name e).

(** The id the code gives to a tuple. *)
Definition event_id (job : string) (step : Z) (t : metric_type)
    (name : string) : string :=
  match t with
  | Loss => id_loss job step name
  | LearningRate => id_lr job step
  | System => id_system job step name
  | Info => id_info job step name
  end.

(** The part of the metric name that reaches the id. *)
Definition id_name (t : metric_type) (name : string) : string :=
  match t with
  | Loss => safe_key name
  | LearningRate => ""
  | System | Info => name
  end.

(** Whether a character occurs in a string. *)
Fixpoint has_char (c : ascii) (s : string) : bool :=
  match s with
  | EmptyString => false
  | String a s' => Ascii.eqb a c || has_char c s'
  end.

(** The last event of a list that carries a given id. *)
Fixpoint last_with_id (i : string) (evs : list event) : option event :=
  match evs with
  | [] => None
  | e :: rest =>
    match last_with_id i rest with
    | Some e' => Some e'
    | None => if decide (ev_id e = i) then Some e else None
    end
  end.

(** The events one call appends to the buffer. *)
Definition appended (hash : string → Z) (job : string) (r : report)
  : list event :=
  fst (append_metrics hash job r []).

(** Whether the appending phases of a call end with an exception. *)
Definition raises (hash : string → Z) (job : string) (r : report)
  : option exn :=
  snd (append_metrics hash job r []).

(** A sequence of calls of [log_step_metrics], each with the outcome its
    flush would meet; an exception is left to the caller and the next call
    follows. *)
Definition run_reports (hash : string → Z) (c : collector) (db : database)
    (calls : list (report * write_outcome)) : collector * database :=
  foldl (λ st call,
           let '(c', db', _) :=
             log_step_metrics hash (fst st) (snd st) (fst call) (snd call) in
           (c', db'))
        (c, db) calls.

(** Every event appended during a sequence of calls, in order. *)
Definition all_appended (hash : string → Z) (job : string)
    (calls : list (report * write_outcome)) : list event :=
  concat (map (λ call, appended hash job (fst call)) calls).

(** Where an appended event comes from: the entry of the call that
    produced it, accepted by the guard of its branch. *)
Definition origin (hash : string → Z) (r : report) (e : event) : Prop :=
  match ev_metric_type e with
  | Loss =>
    ∃ v f, (ev_metric_name e, v) ∈ loss_dict r ∧ is_plain_number v = true ∧
           float_of_number v = Ok f ∧ ev_value e = NFloat f
  | LearningRate =>
    ∃ f, ev_metric_name e = "lr" ∧ is_plain_number (learning_rate r) = true ∧
         float_of_number (learning_rate r) = Ok f ∧ ev_value e = NFloat f
  | System =>
    ∃ v f, (ev_metric_name e, v) ∈ kwargs r ∧ is_plain_number v = true ∧
           float_of_number v = Ok f ∧ ev_value e = NFloat f
  | Info =>
    ∃ s, (ev_metric_name e, PStr s) ∈ kwargs r ∧
         (String.length s < 100)%nat ∧
         ev_value e = NInt (hash s mod 1000000)
  end.




(** Sample data. *)
Definition one : spec_float := S754_finite false 4503599627370496 (-52).
Definition two : spec_float := S754_finite false 4503599627370496 (-51).

Definition sample_hash (s : string) : Z := Z.of_nat (String.length s).

(** [log_step_metrics(1, {"a/b": 1.0, "a_b": 2.0}, nan)] *)
Definition colliding_report : report :=
  {| step := 1;
     loss_dict := [("a/b", PFloat one); ("a_b", PFloat two)];
     learning_rate := PFloat S754_nan;
     kwargs := [];
     timestamp := "2024-01-01T00:00:00" |}.

(** [log_step_metrics(s, {}, 1.0)]: one event. *)
Definition lr_report (s : Z) : report :=
  {| step := s; loss_dict := []; learning_rate := PFloat one; kwargs := [];
     timestamp := "2024-01-01T00:00:00" |}.







(** Nine calls that append one event each. *)
Definition nine_calls : list (report * write_outcome) :=
  map (λ s, (lr_report s, WriteOk)) [1; 2; 3; 4; 5; 6; 7; 8; 9].

(** The collector after these nine calls: nine events buffered. *)
Definition nine_buffered : collector :=
  fst (run_reports sample_hash (Collector.init "job" "metrics.db") empty_db
         nine_calls).

End CollectorSpec.

(** ** Notions used to state the properties of the registry *)

Module ManagerSpec.
Import Collector Manager.

(** Every registered address is the address of an object. *)
Definition wf (w : world) : bool :=
  bool_decide (map_Forall (λ _ l, (l < length (heap w))%nat) (collectors w)).

(** Two threads that call [get_collector] for the same job. *)
Definition two_calls (job : string) (p0 p1 : option string) : list thread :=
  [call job p0; call job p1].

(** The membership test of both threads comes before either store. *)
Definition racing_schedule : list nat := [0; 1; 0; 0; 0; 1; 1; 1]%nat.

(** One call after the other. *)
Definition serial_schedule (i j : nat) : list nat :=
  whole_call i ++ whole_call j.

End ManagerSpec.

(** ** Notions used to state the properties of the configuration store *)

Module DynamicConfigSpec.
Import Py DynamicConfig.

(** The configuration [load_config] makes of the content of a file. *)
Definition loaded (c : yaml_load) : config :=
  match c with
  | YamlDict d => CDict d
  | YamlOther => COther
  | YamlError | YamlFalsy => CDict ∅
  end.

(** The three cadence getters, by the key they read. *)
Definition getter (key : string)
  : option (dynamic_config → filesystem → value →
            result value * dynamic_config * filesystem) :=
  if decide (key = "sample_every") then Some get_sample_every
  else if decide (key = "save_every") then Some get_save_every
  else if decide (key = "log_every") then Some get_log_every
  else None.

(** A value of a YAML document that is an integer. *)
Definition yaml_int (v : value) : bool :=
  match v with
  | PInt _ => true
  | _ => false
  end.

(** A cadence value the reader must not accept: null, not an integer, or
    an integer that is not positive. *)
Definition invalid_cadence (v : value) : bool :=
  match v with
  | PInt z => z <=? 0
  | _ => true
  end.

(** Sample data: a clock reading, an empty file system, the store of job
    [job1] under [/out/job1]. *)
Definition noon : spec_float := S754_finite false 7482983980991693 (-22).

Definition empty_fs : filesystem :=
  {| files := ∅; unwritable := ∅; clock := noon; trace := [] |}.

Definition job1_store : dynamic_config := (init "job1" "/out/job1" empty_fs).1.

Definition job1_fs : filesystem := (init "job1" "/out/job1" empty_fs).2.

(** The operator removes the configuration file. *)
Definition remove_file (fs : filesystem) (p : string) : filesystem :=
  {| files := delete p (files fs); unwritable := unwritable fs;
     clock := clock fs; trace := trace fs |}.

(** The operator saves a document into the configuration file. *)
Definition edit_file (fs : filesystem) (p : string) (d : gmap string value)
  : filesystem :=
  {| files := <[p := File (clock fs) (YamlDict d)]> (files fs);
     unwritable := unwritable fs; clock := clock fs; trace := trace fs |}.

(** The document [sample_every: 25], in a file whose modification time is
    the epoch, before any store exists. *)
Definition sample_every_25 : gmap string value :=
  {["sample_every" := PInt 25]}.

Definition epoch_fs : filesystem :=
  {| files := {["/out/job1/dynamic_config.yaml" :=
                  File (S754_zero false) (YamlDict sample_every_25)]};
     unwritable := ∅; clock := noon; trace := [] |}.

(** A file system in which the configuration file cannot be opened for
    writing (its directory does not exist). *)
Definition locked_fs : filesystem :=
  {| files := ∅; unwritable := {["/out/job1/dynamic_config.yaml"]};
     clock := noon; trace := [] |}.

(** The document [sample_every: true]. *)
Definition sample_every_true : gmap string value :=
  {["sample_every" := PBool true]}.

End DynamicConfigSpec.

(** ** Notions used to state further properties *)

Module AutoMetricsSpec.
Import Py Collector CollectorSpec AutoMetrics.

(** The outcomes up to and including the first successful write. *)
Fixpoint upto_first_ok (outcomes : list write_outcome)
  : list write_outcome :=
  match outcomes with
  | [] => []
  | WriteOk :: _ => [WriteOk]
  | o :: rest => o :: upto_first_ok rest
  end.



(** A file system seen through [os.path.exists]: only the database under
    [ui/] exists. *)
Definition only_ui_db (p : string) : bool :=
  bool_decide (p = "/srv/aitk/ui/aitk_db.db").

End AutoMetricsSpec.

Module ManagerOpsSpec.
Import Py Collector Manager ManagerOps.

(** Every registered address holds a collector of the job it is
    registered under. *)
Definition registry_sound (w : world) : Prop :=
  ∀ job l, collectors w !! job = Some l →
    ∃ c, heap w !! l = Some c ∧ job_id c = job.

(** No collector is registered under two jobs. *)
Definition registry_injective (w : world) : Prop :=
  ∀ j1 j2 l, collectors w !! j1 = Some l → collectors w !! j2 = Some l →
    j1 = j2.

(** Every collector has the threshold of 10. *)
Definition thresholds_ten (w : world) : Prop :=
  ∀ l c, heap w !! l = Some c → buffer_size c = 10%nat.

(** What a thread inside [get_collector] relies on at its position. *)
Definition thread_sound (w : world) (t : thread) : Prop :=
  match t_pc t with
  | AtTest | AtConstruct => True
  | AtStore l => ∃ c, heap w !! l = Some c ∧ job_id c = t_job t
  | AtReturn => is_Some (collectors w !! t_job t)
  | Returned r =>
    ∃ l c, r = Some l ∧ heap w !! l = Some c ∧ job_id c = t_job t
  end.

(** A heap whose objects were only flushed: the same addresses, each
    object with its job, and an empty buffer still empty. *)
Definition heap_flushed (h h' : list collector) : Prop :=
  length h' = length h ∧
  ∀ l c, h !! l = Some c →
    ∃ c', h' !! l = Some c' ∧ job_id c' = job_id c ∧
          (buffer c = [] → buffer c' = []).

(** A registry with two jobs, the first with nine buffered events. *)
Definition two_jobs_world : world :=
  {| collectors := <["job" := 0%nat]> (<["b" := 1%nat]> ∅);
     heap := [CollectorSpec.nine_buffered; Collector.init "b" "metrics.db"];
     dbs := ∅ |}.

End ManagerOpsSpec.

Module DynamicConfigMoreSpec.
Import Py DynamicConfig DynamicConfigSpec DynamicConfigUpdate ConfigCLI.

(** A call that writes a file. *)
Definition is_write (op : fs_op) : bool :=
  match op with
  | OpWrite _ => true
  | _ => false
  end.

(** A call that reads the content of a file. *)
Definition is_read (op : fs_op) : bool :=
  match op with
  | OpRead _ => true
  | _ => false
  end.

(** What a getter makes of the configuration that [check_and_update]
    hands it: the value under the key when it is a positive integer, the
    default otherwise, [AttributeError] when there is no dictionary. *)
Definition validate (key : string) (c : config) (default : value)
  : result value :=
  match config_get c key default with
  | Raise e => Raise e
  | Ok v => Ok (if positive_int v then v else default)
  end.

(** The operator's clock, later than [noon]. *)
Definition one_pm : spec_float := S754_finite false 7482984032795853 (-22).

(** The file system of [job1] an hour after the store was made. *)
Definition job1_fs_later : filesystem :=
  {| files := files job1_fs; unwritable := unwritable job1_fs;
     clock := one_pm; trace := trace job1_fs |}.

(** The store of [job1] after its first check. *)
Definition job1_checked : dynamic_config :=
  (check_and_update job1_store job1_fs).1.2.

(** A file that holds the scalar [hello], saved at one o'clock. *)
Definition scalar_fs : filesystem :=
  {| files := {["/out/job1/dynamic_config.yaml" := File one_pm YamlOther]};
     unwritable := ∅; clock := one_pm; trace := [] |}.

(** A file that cannot be parsed, saved at one o'clock. *)
Definition broken_fs : filesystem :=
  {| files := {["/out/job1/dynamic_config.yaml" := File one_pm YamlError]};
     unwritable := ∅; clock := one_pm; trace := [] |}.

(** The document [update_sample_every] starts from: the one in the file,
    or the defaults it creates when there is no file. *)
Definition document_on_disk (s : dynamic_config) (fs : filesystem)
  : config :=
  match files fs !! config_file s with
  | Some f => loaded (content f)
  | None =>
    if bool_decide (config_file s ∈ unwritable fs) then CDict ∅
    else CDict (default_config (clock fs))
  end.

(** The document [set_config] starts from: the one in the file, or the
    empty one when there is no file or it cannot be parsed. *)
Definition cli_document (fs : filesystem) (config_file : string) : config :=
  match files fs !! config_file with
  | Some f => loaded (content f)
  | None => CDict ∅
  end.

(** [int(value)] on the decimal strings used as sample data. *)
Definition sample_int_of_str (s : string) : option Z :=
  if decide (s = "50") then Some 50
  else if decide (s = "-5") then Some (-5)
  else if decide (s = "0") then Some 0
  else None.

(** Every directory exists. *)
Definition any_dir (p : string) : bool := true.

End DynamicConfigMoreSpec.

(** * Properties of the collector *)

Module CollectorFacts.
Import Py Collector CollectorSpec.

(** ** The buffer as a list that only grows until it is cleared *)

Lemma for_each_app {A} (body : A → result (list event)) (items : list A)
    (buf : list event) :
  for_each body items buf =
  (buf ++ fst (for_each body items []), snd (for_each body items [])).
Proof.
  revert buf. induction items as [|x rest IH]; intros buf; simpl.
  - by rewrite app_nil_r.
  - destruct (body x) as [evs|e]; simpl.
    + rewrite (IH (buf ++ evs)), (IH evs). simpl. by rewrite app_assoc.
    + by rewrite app_nil_r.
Qed.

Lemma append_metrics_app hash job r buf :
  append_metrics hash job r buf =
  (buf ++ appended hash job r, raises hash job r).
Proof.
  unfold appended, raises, append_metrics.
  rewrite (for_each_app _ (loss_dict r) buf).
  destruct (for_each (loss_item job r) (loss_dict r) []) as [l1 [e|]]; simpl.
  - done.
  - destruct (lr_item job r) as [evs|e]; simpl; [|done].
    rewrite (for_each_app _ (kwargs r) ((buf ++ l1) ++ evs)).
    rewrite (for_each_app _ (kwargs r) (l1 ++ evs)). simpl.
    by rewrite !app_assoc.
Qed.

(** ** [INSERT OR REPLACE] keeps the last row of each id *)

Lemma upsert_all_app (a b : list event) (r : gmap string event) :
  upsert_all (a ++ b) r = upsert_all b (upsert_all a r).
Proof. unfold upsert_all. apply foldl_app. Qed.

Lemma lookup_upsert_all (b : list event) (r : gmap string event) (i : string) :
  upsert_all b r !! i =
  match last_with_id i b with Some e => Some e | None => r !! i end.
Proof.
  revert r. induction b as [|e b IH]; intros r; [done|].
  change (upsert_all (e :: b) r) with (upsert_all b (upsert r e)).
  rewrite IH. simpl. destruct (last_with_id i b); [done|].
  unfold upsert. destruct (decide (ev_id e = i)) as [<-|Hne].
  - by rewrite lookup_insert_eq.
  - by rewrite lookup_insert_ne.
Qed.

Lemma upsert_all_idemp (b : list event) (r : gmap string event) :
  upsert_all b (upsert_all b r) = upsert_all b r.
Proof.
  apply map_eq. intros i. rewrite !lookup_upsert_all.
  by destruct (last_with_id i b).
Qed.

Lemma last_with_id_elem (i : string) (evs : list event) (e : event) :
  last_with_id i evs = Some e → e ∈ evs ∧ ev_id e = i.
Proof.
  induction evs as [|x rest IH]; simpl; [done|].
  destruct (last_with_id i rest) as [e'|].
  - intros [= <-]. destruct (IH eq_refl) as [? ?]. split; [by right|done].
  - destruct (decide (ev_id x = i)); [|done].
    intros [= <-]. split; [by left|done].
Qed.

Lemma last_with_id_none (i : string) (evs : list event) :
  last_with_id i evs = None ↔ i ∉ map ev_id evs.
Proof.
  induction evs as [|x rest IH]; simpl.
  - split; [intros _; apply not_elem_of_nil | done].
  - rewrite not_elem_of_cons. destruct (last_with_id i rest) as [e'|].
    + split; [done|]. intros [_ Hn]. by apply IH in Hn.
    + destruct (decide (ev_id x = i)) as [->|Hne].
      * split; [done|]. by intros [? _].
      * split; [|done]. intros _. split; [done|]. by apply IH.
Qed.

Lemma dom_upsert_all (b : list event) (r : gmap string event) :
  dom (upsert_all b r) = list_to_set (map ev_id b) ∪ dom r.
Proof.
  revert r. induction b as [|e b IH]; intros r.
  - simpl. by rewrite (left_id_L ∅ (∪)).
  - change (upsert_all (e :: b) r) with (upsert_all b (upsert r e)).
    rewrite IH. unfold upsert. rewrite dom_insert_L. simpl.
    rewrite (assoc_L (∪)). f_equal. apply (comm_L (∪)).
Qed.

(** ** [flush] *)

Lemma flush_job_id c db o : job_id (fst (flush c db o)) = job_id c.
Proof. unfold flush. destruct (buffer c), (completed o); done. Qed.

Lemma flush_buffer_size c db o :
  buffer_size (fst (flush c db o)) = buffer_size c.
Proof. unfold flush. destruct (buffer c), (completed o); done. Qed.

(** What is durable or still buffered is the same before and after a
    flush, whatever its outcome. *)
Lemma flush_keeps_events c db o :
  upsert_all (buffer (fst (flush c db o))) (rows (snd (flush c db o))) =
  upsert_all (buffer c) (rows db).
Proof.
  unfold flush. destruct (buffer c) as [|e b] eqn:Hb; simpl.
  - by rewrite Hb.
  - destruct o; simpl; rewrite ?Hb; try done.
    apply (upsert_all_idemp (e :: b)).
Qed.

Lemma flush_empty c db o : buffer c = [] → flush c db o = (c, db).
Proof. unfold flush. by intros ->. Qed.

Lemma flush_nonempty c db o :
  buffer c ≠ [] →
  flush c db o =
  (if completed o then set_buffer c [] else c,
   {| rows := if committed o then upsert_all (buffer c) (rows db)
              else rows db;
      attempts := attempts db ++ [(buffer c, o)] |}).
Proof. unfold flush. by destruct (buffer c). Qed.

(** The rows after a flush, id by id: a committed batch leaves under each
    of its ids the last event of the batch with that id, and every other row
    as it was. *)
Lemma flush_rows_lookup c db o (i : string) :
  rows (flush c db o).2 !! i =
  if committed o then
    match last_with_id i (buffer c) with
    | Some e => Some e
    | None => rows db !! i
    end
  else rows db !! i.
Proof.
  unfold flush. destruct (buffer c) as [|x b] eqn:Hb.
  - simpl. by destruct (committed o).
  - cbn [snd rows]. destruct (committed o); [|done].
    apply lookup_upsert_all.
Qed.


Lemma last_with_id_is_Some (evs : list event) (e : event) :
  e ∈ evs →
  ∃ e', last_with_id (ev_id e) evs = Some e' ∧ e' ∈ evs ∧ ev_id e' = ev_id e.
Proof.
  intros He.
  destruct (last_with_id (ev_id e) evs) as [e'|] eqn:Hlast.
  - exists e'. split; [done|]. by apply last_with_id_elem.
  - apply last_with_id_none in Hlast. destruct Hlast.
    apply list_elem_of_In, in_map, list_elem_of_In. done.
Qed.

(** When no later event has the id of an event, that event is the last
    of its id. *)
Lemma last_with_id_unique (evs : list event) (e : event) :
  e ∈ evs →
  (∀ e', e' ∈ evs → ev_id e' = ev_id e → e' = e) →
  last_with_id (ev_id e) evs = Some e.
Proof.
  intros He Huniq.
  destruct (last_with_id_is_Some evs e He) as (e' & -> & Hin & Hid).
  f_equal. by apply Huniq.
Qed.

(** C2.  [flush] on an empty buffer changes nothing and opens no
    transaction.  On a non-empty buffer it opens exactly one transaction,
    whose batch is the whole buffer.  When the transaction is committed,
    the table holds under every id of the batch the last buffered event with
    that id, so every buffered event has its row, and every row under
    another id is as it was; when it is not committed, the table is
    unchanged.  The buffer is emptied when the write runs to its end, and is
    left as it was, with every event, when the write fails; so an emptied
    buffer means a committed write. *)
Theorem flush_clears_only_on_success (c : collector) (db : database)
    (o : write_outcome) :
  (buffer c = [] → flush c db o = (c, db)) ∧
  (buffer c ≠ [] →
   attempts (snd (flush c db o)) = attempts db ++ [(buffer c, o)] ∧
   (committed o = true →
      (∀ i, rows (snd (flush c db o)) !! i =
            match last_with_id i (buffer c) with
            | Some e => Some e
            | None => rows db !! i
            end) ∧
      (∀ e, e ∈ buffer c →
         ∃ e', rows (snd (flush c db o)) !! ev_id e = Some e' ∧
               e' ∈ buffer c ∧ ev_id e' = ev_id e) ∧
      (∀ e, e ∈ buffer c →
         (∀ e', e' ∈ buffer c → ev_id e' = ev_id e → e' = e) →
         rows (snd (flush c db o)) !! ev_id e = Some e) ∧
      (∀ i, i ∉ ev_id <$> buffer c →
         rows (snd (flush c db o)) !! i = rows db !! i) ∧
      (size (rows db) ≤ size (rows (snd (flush c db o))))%nat) ∧
   (committed o = false → rows (snd (flush c db o)) = rows db) ∧
   (o = WriteOk → buffer (fst (flush c db o)) = []) ∧
   (o ≠ WriteOk → fst (flush c db o) = c) ∧
   (buffer (fst (flush c db o)) = [] → committed o = true)).
Proof.
  split; [apply flush_empty|].
  intros Hne. split_and!.
  - by rewrite (flush_nonempty _ _ _ Hne).
  - intros Hc.
    assert (Hrows : ∀ i, rows (flush c db o).2 !! i =
                         match last_with_id i (buffer c) with
                         | Some e => Some e
                         | None => rows db !! i
                         end).
    { intros i. by rewrite flush_rows_lookup, Hc. }
    split_and!.
    + exact Hrows.
    + intros e He. rewrite Hrows.
      destruct (last_with_id_is_Some _ _ He) as (e' & -> & ? & ?).
      by exists e'.
    + intros e He Huniq. rewrite Hrows.
      by rewrite (last_with_id_unique _ _ He Huniq).
    + intros i Hi. rewrite Hrows.
      by rewrite (proj2 (last_with_id_none i (buffer c))).
    + rewrite <- (size_dom (D:=gset string) (rows db)),
        <- (size_dom (D:=gset string) (rows (flush c db o).2)).
      apply subseteq_size. intros i.
      rewrite !elem_of_dom, Hrows.
      destruct (last_with_id i (buffer c)); [by eexists|done].
  - intros Hc. rewrite (flush_nonempty _ _ _ Hne). simpl. by rewrite Hc.
  - intros ->. by rewrite (flush_nonempty _ _ _ Hne).
  - intros Ho. rewrite (flush_nonempty _ _ _ Hne). by destruct o.
  - rewrite (flush_nonempty _ _ _ Hne). by destruct o.
Qed.

(** A flush of nine buffered events that succeeds: one transaction, an
    empty buffer, and the learning rate of step 1 in its row; the same flush
    with a connection that fails keeps the nine events and writes no row. *)
Lemma flush_clears_only_on_success_witness :
  buffer (flush nine_buffered empty_db WriteOk).1 = [] ∧
  attempts (flush nine_buffered empty_db WriteOk).2 =
    [(buffer nine_buffered, WriteOk)] ∧
  rows (flush nine_buffered empty_db WriteOk).2 !! "job_1_lr" =
    Some (Event "job_1_lr" "job" 1 "2024-01-01T00:00:00" LearningRate "lr"
                (NFloat one)) ∧
  rows (flush nine_buffered empty_db WriteOk).2 !! "job_10_lr" = None ∧
  (flush nine_buffered empty_db FailConnect).1 = nine_buffered ∧
  rows (flush nine_buffered empty_db FailConnect).2 = ∅.
Proof.
  assert (Hne : buffer nine_buffered ≠ []) by (vm_compute; discriminate).
  destruct (flush_clears_only_on_success nine_buffered empty_db WriteOk)
    as [_ H].
  destruct (H Hne) as (Hatt & Hrows & _ & Hok & _).
  destruct (Hrows eq_refl) as (Hlookup & _).
  destruct (flush_clears_only_on_success nine_buffered empty_db FailConnect)
    as [_ H'].
  destruct (H' Hne) as (_ & _ & Hkeep & _ & Hfail & _).
  split_and!.
  - by apply Hok.
  - exact Hatt.
  - rewrite Hlookup. reflexivity.
  - rewrite Hlookup. reflexivity.
  - by apply Hfail.
  - by apply Hkeep.
Defined.

(** ** [log_step_metrics] *)

Lemma log_step_metrics_unfold hash c db r o :
  log_step_metrics hash c db r o =
  let b := buffer c ++ appended hash (job_id c) r in
  match raises hash (job_id c) r with
  | Some e => (set_buffer c b, db, Raise e)
  | None =>
    if (buffer_size c <=? length b)%nat then
      (fst (flush (set_buffer c b) db o), snd (flush (set_buffer c b) db o),
       Ok tt)
    else (set_buffer c b, db, Ok tt)
  end.
Proof.
  unfold log_step_metrics. rewrite append_metrics_app.
  destruct (raises hash (job_id c) r); simpl; [done|].
  destruct (buffer_size c <=? _)%nat; [|done].
  by destruct (flush _ db o).
Qed.

Lemma log_step_metrics_job_id hash c db r o :
  job_id (log_step_metrics hash c db r o).1.1 = job_id c.
Proof.
  rewrite log_step_metrics_unfold. simpl.
  destruct (raises _ _ _); simpl; [done|].
  destruct (_ <=? _)%nat; simpl; [|done]. by rewrite flush_job_id.
Qed.

Lemma log_step_metrics_buffer_size hash c db r o :
  buffer_size (log_step_metrics hash c db r o).1.1 = buffer_size c.
Proof.
  rewrite log_step_metrics_unfold. simpl.
  destruct (raises _ _ _); simpl; [done|].
  destruct (_ <=? _)%nat; simpl; [|done]. by rewrite flush_buffer_size.
Qed.

(** After a call, the rows with the buffer on top of them are the rows and
    the buffer of before with the new events on top. *)
Lemma log_step_metrics_keeps_events hash c db r o :
  upsert_all (buffer (log_step_metrics hash c db r o).1.1)
             (rows (log_step_metrics hash c db r o).1.2) =
  upsert_all (buffer c ++ appended hash (job_id c) r) (rows db).
Proof.
  rewrite log_step_metrics_unfold. simpl.
  destruct (raises _ _ _); simpl; [done|].
  destruct (_ <=? _)%nat; simpl; [|done]. by rewrite flush_keeps_events.
Qed.

(** ** Where buffered events come from *)

Lemma for_each_elem {A} (body : A → result (list event)) (items : list A)
    (e : event) :
  e ∈ fst (for_each body items []) →
  ∃ x evs, x ∈ items ∧ body x = Ok evs ∧ e ∈ evs.
Proof.
  induction items as [|x rest IH]; simpl.
  - by intros ?%elem_of_nil.
  - destruct (body x) as [evs|err] eqn:Hx; simpl.
    + rewrite for_each_app. simpl. intros [Hin|Hin]%elem_of_app.
      * exists x, evs. split; [by left|done].
      * destruct (IH Hin) as (y & evs' & ? & ? & ?).
        exists y, evs'. split; [by right|done].
    + by intros ?%elem_of_nil.
Qed.



Lemma loss_item_inv job r key v evs e :
  loss_item job r (key, v) = Ok evs → e ∈ evs →
  ∃ f, is_plain_number v = true ∧ float_of_number v = Ok f ∧
       e = Event (id_loss job (step r) key) job (step r) (timestamp r)
                 Loss key (NFloat f).
Proof.
  unfold loss_item. destruct (is_plain_number v); [|by intros [= <-] ?%elem_of_nil].
  destruct (float_of_number v) as [f|]; [|done].
  intros [= <-] ->%list_elem_of_singleton. by exists f.
Qed.

Lemma lr_item_inv job r evs e :
  lr_item job r = Ok evs → e ∈ evs →
  ∃ f, is_plain_number (learning_rate r) = true ∧
       float_of_number (learning_rate r) = Ok f ∧
       e = Event (id_lr job (step r)) job (step r) (timestamp r)
                 LearningRate "lr" (NFloat f).
Proof.
  unfold lr_item.
  destruct (is_plain_number _); [|by intros [= <-] ?%elem_of_nil].
  destruct (float_of_number _) as [f|]; [|done].
  intros [= <-] ->%list_elem_of_singleton. by exists f.
Qed.

Lemma kwargs_item_inv hash job r key v evs e :
  kwargs_item hash job r (key, v) = Ok evs → e ∈ evs →
  (∃ f, is_plain_number v = true ∧ float_of_number v = Ok f ∧
        e = Event (id_system job (step r) key) job (step r) (timestamp r)
                  System key (NFloat f)) ∨
  (∃ s, v = PStr s ∧ (String.length s < 100)%nat ∧
        e = Event (id_info job (step r) key) job (step r) (timestamp r)
                  Info key (NInt (hash s mod 1000000))).
Proof.
  unfold kwargs_item. destruct (is_plain_number v) eqn:Hnum.
  - assert (Hv : v ≠ PNone) by (by intros ->).
    destruct (float_of_number v) as [f|err] eqn:Hf.
    + destruct v; try done;
        intros [= <-] ->%list_elem_of_singleton; left; by exists f.
    + destruct v; try done; destruct err; simpl; try done;
        by intros [= <-] ?%elem_of_nil.
  - destruct v as [|b|z|f|s|]; try done; simpl;
      try by intros [= <-] ?%elem_of_nil.
    destruct (String.length s <? 100)%nat eqn:Hlen;
      [|by intros [= <-] ?%elem_of_nil].
    apply Nat.ltb_lt in Hlen.
    intros [= <-] ->%list_elem_of_singleton. right. by exists s.
Qed.

Lemma appended_elem hash job r e :
  e ∈ appended hash job r →
  (∃ key v evs, (key, v) ∈ loss_dict r ∧
                loss_item job r (key, v) = Ok evs ∧ e ∈ evs) ∨
  (∃ evs, lr_item job r = Ok evs ∧ e ∈ evs) ∨
  (∃ key v evs, (key, v) ∈ kwargs r ∧
                kwargs_item hash job r (key, v) = Ok evs ∧ e ∈ evs).
Proof.
  unfold appended, append_metrics.
  destruct (for_each (loss_item job r) (loss_dict r) []) as [l1 err] eqn:H1.
  assert (Hl1 : e ∈ l1 →
    ∃ key v evs, (key, v) ∈ loss_dict r ∧
                 loss_item job r (key, v) = Ok evs ∧ e ∈ evs).
  { intros Hin. replace l1 with (fst (for_each (loss_item job r) (loss_dict r) []))
      in Hin by (by rewrite H1).
    destruct (for_each_elem _ _ _ Hin) as ([key v] & evs & ? & ? & ?).
    by exists key, v, evs. }
  destruct err as [err|]; simpl; [by left; apply Hl1|].
  destruct (lr_item job r) as [evs|err] eqn:H2; simpl; [|by left; apply Hl1].
  rewrite for_each_app. simpl.
  intros [[Hin|Hin]%elem_of_app|Hin]%elem_of_app.
  - left. by apply Hl1.
  - right; left. by exists evs.
  - right; right.
    destruct (for_each_elem _ _ _ Hin) as ([key v] & evs' & ? & ? & ?).
    by exists key, v, evs'.
Qed.

(** Every buffered event belongs to the collector's job and to the step
    of its call, carries the id of its tuple, and comes from an entry that
    passed the guard of its branch. *)
Lemma appended_origin hash job r e :
  e ∈ appended hash job r →
  origin hash r e ∧ ev_job_id e = job ∧ ev_step e = step r ∧
  ev_timestamp e = timestamp r ∧
  ev_id e = event_id job (step r) (ev_metric_type e) (ev_metric_name e).
Proof.
  intros [(key & v & evs & Hin & Hitem & He)
         |[(evs & Hitem & He)|(key & v & evs & Hin & Hitem & He)]]%appended_elem.
  - destruct (loss_item_inv _ _ _ _ _ _ Hitem He) as (f & ? & ? & ->).
    unfold origin. simpl. split_and!; try done. by exists v, f.
  - destruct (lr_item_inv _ _ _ _ Hitem He) as (f & ? & ? & ->).
    unfold origin. simpl. split_and!; try done. by exists f.
  - destruct (kwargs_item_inv _ _ _ _ _ _ _ Hitem He)
      as [(f & ? & ? & ->)|(s & -> & ? & ->)];
      unfold origin; simpl; (split_and!; try done).
    + by exists v, f.
    + by exists s.
Qed.

(** ** [float] never makes a NaN *)










(** ** The threshold *)

(** C3, as the code has it.  A collector is created with a threshold of
    10.  When a call that raises nothing leaves at least 10 events in the
    buffer, it opens exactly one transaction before it returns, with the
    whole buffer as its batch, and the buffer is empty afterwards if the
    write succeeds and unchanged if it fails.  When the call leaves fewer
    than 10 events, it opens no transaction and the events stay buffered,
    so a buffer of 1 to 9 events is non-empty after the call. *)
Theorem threshold_triggers_one_flush (hash : string → Z) (c : collector)
    (db : database) (r : report) (o : write_outcome) :
  buffer_size c = 10%nat →
  raises hash (job_id c) r = None →
  let b := buffer c ++ appended hash (job_id c) r in
  let '(c', db', res) := log_step_metrics hash c db r o in
  res = Ok tt ∧
  ((10 ≤ length b)%nat →
     attempts db' = attempts db ++ [(b, o)] ∧
     (o = WriteOk → buffer c' = []) ∧
     (o ≠ WriteOk → buffer c' = b)) ∧
  ((length b < 10)%nat →
     db' = db ∧ buffer c' = b ∧ ((0 < length b)%nat → buffer c' ≠ [])).
Proof.
  intros Hsize Hraise b. rewrite log_step_metrics_unfold, Hraise, Hsize.
  cbv zeta. fold b. destruct (10 <=? length b)%nat eqn:Hlen.
  - apply Nat.leb_le in Hlen. split; [done|]. split; [|lia].
    intros _.
    assert (Hne : buffer (set_buffer c b) ≠ []).
    { simpl. intros Hnil. rewrite Hnil in Hlen. simpl in Hlen. lia. }
    rewrite (flush_nonempty _ _ _ Hne). simpl.
    split; [done|]. split.
    + by intros ->.
    + intros Ho. by destruct o.
  - apply Nat.leb_gt in Hlen. split; [done|]. split; [lia|].
    intros _. split; [done|]. split; [done|].
    simpl. intros Hpos Hnil. rewrite Hnil in Hpos. simpl in Hpos. lia.
Qed.

(** The tenth event reaches the threshold; the write succeeds and the
    buffer is empty when the call returns. *)
Lemma threshold_triggers_one_flush_witness :
  buffer (log_step_metrics sample_hash nine_buffered empty_db (lr_report 10)
            WriteOk).1.1 = [].
Proof.
  pose proof (threshold_triggers_one_flush sample_hash nine_buffered empty_db
                (lr_report 10) WriteOk eq_refl eq_refl) as H.
  destruct (log_step_metrics sample_hash nine_buffered empty_db (lr_report 10)
              WriteOk) as [[c' db'] res].
  destruct H as (_ & H & _). simpl.
  apply H; [vm_compute; lia | reflexivity].
Defined.

(** C3 fails as stated: nine events are buffered, the tenth call reaches
    the threshold and opens its one transaction, the connection fails, and
    ten events are still in the buffer when the call returns. *)
Lemma threshold_flush_may_fail_counterexample :
  let '(c', db', res) :=
    log_step_metrics sample_hash nine_buffered empty_db (lr_report 10)
      FailConnect in
  length (buffer nine_buffered) = 9%nat ∧ res = Ok tt ∧
  length (attempts db') = 1%nat ∧ length (buffer c') = 10%nat ∧
  buffer c' ≠ [].
Proof. vm_compute. split_and!; done. Qed.

(** ** Values that are skipped, and calls that raise nothing *)












(** An integer beyond the range of [float] makes [float(value)] raise
    [OverflowError], which [log_step_metrics] does not catch. *)
Lemma huge_int_raises :
  (log_step_metrics sample_hash (Collector.init "job" "metrics.db") empty_db
     {| step := 1; loss_dict := [("total", PInt (2 ^ 1024))];
        learning_rate := PNone; kwargs := []; timestamp := "" |}
     WriteOk).2 = Raise OverflowError.
Proof. vm_compute. done. Qed.

(** ** The id of an event determines its step, its type and the sanitized
    name *)

Lemma append_inj_l (s a b : string) : s +:+ a = s +:+ b → a = b.
Proof. induction s as [|c s IH]; simpl; [done|]. intros [= ?]. auto. Qed.

(** Two strings cut at their first occurrence of a character. *)
Lemma append_cut (c : ascii) (x y a b : string) :
  has_char c x = false → has_char c y = false →
  x +:+ String c a = y +:+ String c b → x = y ∧ a = b.
Proof.
  revert y. induction x as [|d x IH]; intros [|d' y]; simpl.
  - intros _ _ [= ->]. done.
  - intros _ Hy [= <- _]. by rewrite Ascii.eqb_refl in Hy.
  - intros Hx _ [= -> _]. by rewrite Ascii.eqb_refl in Hx.
  - intros [_ Hx]%orb_false_elim [_ Hy]%orb_false_elim [= -> Heq].
    destruct (IH y Hx Hy Heq) as [-> ->]. done.
Qed.

Lemma string_of_uint_no_underscore (d : uint) :
  has_char "_" (NilEmpty.string_of_uint d) = false.
Proof. induction d; simpl; done. Qed.

Lemma str_int_no_underscore (z : Z) : has_char "_" (str_int z) = false.
Proof.
  unfold str_int, NilZero.string_of_int, NilZero.string_of_uint.
  destruct (Z.to_int z) as [d|d]; simpl;
    destruct d; simpl; try done; apply string_of_uint_no_underscore.
Qed.

Lemma str_int_inj (a b : Z) : str_int a = str_int b → a = b.
Proof.
  unfold str_int. intros Heq.
  apply DecimalZ.to_int_inj.
  assert (Hnn : ∀ z, Z.to_int z ≠ Pos Nil ∧ Z.to_int z ≠ Neg Nil).
  { intros [|p|p]; simpl; split; try done;
      intros [= Hp]; by apply (DecimalPos.Unsigned.to_uint_nonnil p). }
  assert (Some (Z.to_int a) = Some (Z.to_int b)) as [= ?]; [|done].
  rewrite <- (NilZero.isi (Z.to_int a)), <- (NilZero.isi (Z.to_int b));
    try apply Hnn.
  by rewrite Heq.
Qed.

Lemma event_id_inj (job : string) (s1 s2 : Z) (t1 t2 : metric_type)
    (n1 n2 : string) :
  event_id job s1 t1 n1 = event_id job s2 t2 n2 ↔
  s1 = s2 ∧ t1 = t2 ∧ id_name t1 n1 = id_name t2 n2.
Proof.
  split.
  - intros Heq.
    assert (Hcut : ∀ a b,
      job +:+ "_" +:+ str_int s1 +:+ String "_" a =
      job +:+ "_" +:+ str_int s2 +:+ String "_" b → s1 = s2 ∧ a = b).
    { intros a b H. apply append_inj_l in H. simpl in H.
      injection H as H.
      apply append_cut in H as [?%str_int_inj ?];
        [done|apply str_int_no_underscore..]. }
    destruct t1, t2; apply Hcut in Heq as [-> Heq]; simpl in Heq;
      simplify_eq; done.
  - intros (-> & -> & Hn). destruct t2; simpl in *; unfold id_loss, id_system, id_info; by rewrite ?Hn.
Qed.

(** ** Keyword arguments that are strings *)












Lemma run_reports_cons hash c db call calls :
  run_reports hash c db (call :: calls) =
  run_reports hash (log_step_metrics hash c db call.1 call.2).1.1
              (log_step_metrics hash c db call.1 call.2).1.2 calls.
Proof.
  unfold run_reports. simpl.
  by destruct (log_step_metrics hash c db call.1 call.2) as [[c' db'] res].
Qed.

Lemma run_reports_keeps_events hash c db calls :
  job_id (run_reports hash c db calls).1 = job_id c ∧
  upsert_all (buffer (run_reports hash c db calls).1)
             (rows (run_reports hash c db calls).2) =
  upsert_all (buffer c ++ all_appended hash (job_id c) calls) (rows db).
Proof.
  revert c db. induction calls as [|call calls IH]; intros c db.
  - unfold all_appended. simpl. by rewrite app_nil_r.
  - rewrite run_reports_cons.
    destruct (IH (log_step_metrics hash c db call.1 call.2).1.1
                 (log_step_metrics hash c db call.1 call.2).1.2) as [Hj Hu].
    rewrite log_step_metrics_job_id in Hj, Hu. split; [done|].
    rewrite Hu. rewrite upsert_all_app, log_step_metrics_keeps_events.
    unfold all_appended. simpl. by rewrite <- !upsert_all_app, app_assoc.
Qed.

Lemma all_appended_origin hash job calls e :
  e ∈ all_appended hash job calls →
  ev_job_id e = job ∧
  ev_id e = event_id job (ev_step e) (ev_metric_type e) (ev_metric_name e).
Proof.
  unfold all_appended. induction calls as [|call calls IH]; simpl.
  - by intros ?%elem_of_nil.
  - intros [He|He]%elem_of_app; [|by apply IH].
    destruct (appended_origin _ _ _ _ He) as (_ & ? & Hs & _ & Hid).
    by rewrite Hs.
Qed.

(** C1, as the code has it.  The id of an event is a function of its
    (job_id, step, metric_type, metric_name) tuple, and for one job two
    tuples have the same id exactly when they have the same step, the same
    type and, for a loss, the same name after [/], space and [-] have become
    [_] (for the other types: the same name).  After any sequence of calls
    and a successful flush the buffer is empty and the table holds the
    earlier rows with every reported event upserted in order: its ids are
    the earlier ones and those reported, one row per id, and the row of a
    reported id is the last event reported with that id. *)
Theorem one_row_per_id (hash : string → Z) (job path : string)
    (db0 : database) (calls : list (report * write_outcome)) :
  let '(c, db) := run_reports hash (Collector.init job path) db0 calls in
  let '(c', db') := flush c db WriteOk in
  let evs := all_appended hash job calls in
  buffer c' = [] ∧
  rows db' = upsert_all evs (rows db0) ∧
  dom (rows db') = list_to_set (ev_id <$> evs) ∪ dom (rows db0) ∧
  (∀ i e, last_with_id i evs = Some e → rows db' !! i = Some e) ∧
  (∀ e, e ∈ evs →
     ev_job_id e = job ∧
     ev_id e = event_id job (ev_step e) (ev_metric_type e)
                 (ev_metric_name e)) ∧
  (∀ s1 t1 n1 s2 t2 n2,
     event_id job s1 t1 n1 = event_id job s2 t2 n2 ↔
     s1 = s2 ∧ t1 = t2 ∧ id_name t1 n1 = id_name t2 n2).
Proof.
  pose proof (run_reports_keeps_events hash (Collector.init job path) db0 calls)
    as [_ Hkeep].
  destruct (run_reports hash (Collector.init job path) db0 calls) as [c db].
  simpl in Hkeep.
  pose proof (flush_keeps_events c db WriteOk) as Hflush.
  assert (Hbuf : buffer (flush c db WriteOk).1 = []).
  { destruct (decide (buffer c = [])) as [He|Hne].
    - by rewrite (flush_empty _ _ _ He).
    - by rewrite (flush_nonempty _ _ _ Hne). }
  destruct (flush c db WriteOk) as [c' db']. simpl in *.
  rewrite Hbuf in Hflush. simpl in Hflush.
  assert (Hrows : rows db' = upsert_all (all_appended hash job calls) (rows db0))
    by congruence.
  split_and!.
  - done.
  - done.
  - rewrite Hrows. apply dom_upsert_all.
  - intros i e Hlast. by rewrite Hrows, lookup_upsert_all, Hlast.
  - intros e. apply all_appended_origin.
  - intros. apply event_id_inj.
Qed.

(** C1 fails as stated: the loss names [a/b] and [a_b] of one call are
    two distinct tuples with the one id [job_1_loss_a_b], and after a
    successful flush the table holds one row for the two of them. *)
Lemma sanitized_names_collide_counterexample :
  let evs := appended sample_hash "job" colliding_report in
  let '(c, db) :=
    run_reports sample_hash (Collector.init "job" "metrics.db") empty_db
      [(colliding_report, WriteOk)] in
  let '(c', db') := flush c db WriteOk in
  length (remove_dups (tuple_of <$> evs)) = 2%nat ∧
  ev_id <$> evs = ["job_1_loss_a_b"; "job_1_loss_a_b"] ∧
  size (rows db') = 1%nat.
Proof. vm_compute. done. Qed.

End CollectorFacts.

(** * Properties of the registry *)

Module ManagerFacts.
Import Collector CollectorSpec Manager ManagerSpec CollectorFacts.

(** ** One thread *)

Lemma wf_lookup w job l :
  wf w = true → collectors w !! job = Some l → is_Some (heap w !! l).
Proof.
  unfold wf. intros Hwf%bool_decide_eq_true Hl.
  apply lookup_lt_is_Some. exact (Hwf job l Hl).
Qed.

Lemma get_collector_unknown dp w job p :
  collectors w !! job = None →
  get_collector dp w job p =
  ({| collectors := <[job := length (heap w)]> (collectors w);
      heap := heap w ++ [Collector.init job (resolve_db_path dp p)];
      dbs := dbs w |}, Some (length (heap w))).
Proof.
  unfold get_collector, construct, store. intros ->. simpl.
  by rewrite lookup_insert_eq.
Qed.

Lemma get_collector_known dp w job p l :
  collectors w !! job = Some l → get_collector dp w job p = (w, Some l).
Proof. unfold get_collector. intros H. rewrite H. simpl. by rewrite H. Qed.

Lemma get_collector_wf dp w job p :
  wf w = true → wf (get_collector dp w job p).1 = true.
Proof.
  intros Hwf. destruct (collectors w !! job) as [l|] eqn:Hl.
  - by rewrite (get_collector_known _ _ _ _ _ Hl).
  - rewrite (get_collector_unknown _ _ _ _ Hl). simpl.
    unfold wf in *. apply bool_decide_eq_true in Hwf.
    apply bool_decide_eq_true. simpl. rewrite length_app. simpl.
    apply map_Forall_insert_2; [lia|].
    eapply map_Forall_impl; [exact Hwf|]. simpl. intros; lia.
Qed.

Lemma cleanup_collector_unknown w job o :
  collectors w !! job = None → cleanup_collector w job o = w.
Proof. unfold cleanup_collector. by intros ->. Qed.

Lemma cleanup_collector_known w job o l c :
  collectors w !! job = Some l → heap w !! l = Some c →
  cleanup_collector w job o =
  {| collectors := delete job (collectors w);
     heap := <[l := (flush c (db_at w (db_path c)) o).1]> (heap w);
     dbs := <[db_path c := (flush c (db_at w (db_path c)) o).2]> (dbs w) |}.
Proof.
  unfold cleanup_collector, cleanup. intros -> ->.
  by destruct (flush c (db_at w (db_path c)) o).
Qed.

Lemma cleanup_collector_wf w job o :
  wf w = true → wf (cleanup_collector w job o) = true.
Proof.
  intros Hwf. destruct (collectors w !! job) as [l|] eqn:Hl.
  - destruct (wf_lookup _ _ _ Hwf Hl) as [c Hc].
    rewrite (cleanup_collector_known _ _ _ _ _ Hl Hc).
    unfold wf in *. apply bool_decide_eq_true in Hwf.
    apply bool_decide_eq_true. simpl. rewrite length_insert.
    by apply map_Forall_delete.
  - by rewrite (cleanup_collector_unknown _ _ _ Hl).
Qed.

(** C8.  In a world where every registered address is the address of an
    object: the first [get_collector] for an unregistered job constructs one
    collector, for that job, with an empty buffer and the threshold of 10,
    and registers its address; the database of the new collector is the
    [db_path] given to that call when it is a non-empty string, and the
    default path when it is [None] or empty.  A call for a registered job
    returns the registered address and changes nothing, whatever [db_path]
    it is given, so a second call returns the instance of the first, whose
    database is still the one of its creation.  [cleanup_collector] flushes
    the registered collector and removes the job from the registry, whether
    the write succeeds or not: after a successful write the object has an
    empty buffer and its database holds, under every buffered id, the last
    event buffered with that id; after a failed one the object keeps its
    buffer.  For an unregistered job it does nothing. *)
Theorem registry_lifecycle (dp : string) (w : world) (job : string)
    (p1 p2 : option string) (o : write_outcome) :
  wf w = true →
  let '(w1, l1) := get_collector dp w job p1 in
  let '(w2, l2) := get_collector dp w1 job p2 in
  let w' := cleanup_collector w job o in
  (collectors w !! job = None →
     ∃ c, l1 = Some (length (heap w)) ∧
       heap w1 = heap w ++ [c] ∧
       job_id c = job ∧ buffer c = [] ∧ buffer_size c = 10%nat ∧
       (∀ p, p1 = Some p → p ≠ "" → db_path c = p) ∧
       (p1 = None ∨ p1 = Some "" → db_path c = dp) ∧
       collectors w1 = <[job := length (heap w)]> (collectors w) ∧
       dbs w1 = dbs w) ∧
  (∀ l, collectors w !! job = Some l → w1 = w ∧ l1 = Some l) ∧
  w2 = w1 ∧ l2 = l1 ∧ is_Some l1 ∧ wf w1 = true ∧
  (∀ l, l1 = Some l →
     collectors w1 !! job = Some l ∧
     ∃ c, heap w1 !! l = Some c ∧ heap w2 !! l = Some c) ∧
  (∀ l, collectors w !! job = Some l →
     ∃ c, heap w !! l = Some c ∧
       w' =
       {| collectors := delete job (collectors w);
          heap := <[l := (flush c (db_at w (db_path c)) o).1]> (heap w);
          dbs := <[db_path c := (flush c (db_at w (db_path c)) o).2]> (dbs w)
       |} ∧
       length (heap w') = length (heap w) ∧
       (o = WriteOk →
          (∃ c', heap w' !! l = Some c' ∧ buffer c' = [] ∧
                 job_id c' = job_id c ∧ db_path c' = db_path c) ∧
          ∀ i e, last_with_id i (buffer c) = Some e →
            rows (db_at w' (db_path c)) !! i = Some e) ∧
       (o ≠ WriteOk → heap w' !! l = Some c)) ∧
  (collectors w !! job = None → w' = w) ∧
  collectors w' !! job = None.
Proof.
  intros Hwf.
  pose proof (get_collector_wf dp w job p1 Hwf) as Hwf1.
  assert (H1 : ∃ l, (get_collector dp w job p1).2 = Some l ∧
                    collectors (get_collector dp w job p1).1 !! job = Some l).
  { destruct (collectors w !! job) as [l|] eqn:Hl.
    - rewrite (get_collector_known _ _ _ _ _ Hl). by exists l.
    - rewrite (get_collector_unknown _ _ _ _ Hl). simpl.
      exists (length (heap w)). by rewrite lookup_insert_eq. }
  destruct H1 as (l1' & Hl1 & Hreg1).
  pose proof (get_collector_known dp _ job p2 _ Hreg1) as H2.
  pose proof (get_collector_unknown dp w job p1) as Hunk.
  pose proof (get_collector_known dp w job p1) as Hkn.
  destruct (get_collector dp w job p1) as [w1 l1]. cbn [fst snd] in *.
  rewrite H2. subst l1. cbv zeta.
  split_and!; try done.
  - intros Hnone. specialize (Hunk Hnone). simplify_eq.
    exists (Collector.init job (resolve_db_path dp p1)). simpl.
    split_and!; try done.
    + by intros p -> Hp; destruct p.
    + by intros [->| ->].
  - intros l Hl. specialize (Hkn l Hl). by simplify_eq.
  - intros l [= <-]. split; [done|].
    destruct (wf_lookup _ _ _ Hwf1 Hreg1) as [c Hc]. by exists c.
  - intros l Hl. destruct (wf_lookup _ _ _ Hwf Hl) as [c Hc].
    exists c. split; [done|].
    rewrite (cleanup_collector_known _ _ _ _ _ Hl Hc). simpl.
    split; [done|]. split; [by rewrite length_insert|].
    assert (Hlt : (l < length (heap w))%nat) by (by eapply lookup_lt_Some).
    split.
    + intros ->. split.
      * eexists. rewrite list_lookup_insert_eq by done.
        split; [done|].
        rewrite flush_job_id. split_and!; try done.
        -- destruct (decide (buffer c = [])) as [He|Hne].
           ++ by rewrite (flush_empty _ _ _ He).
           ++ by rewrite (flush_nonempty _ _ _ Hne).
        -- destruct (decide (buffer c = [])) as [He|Hne].
           ++ by rewrite (flush_empty _ _ _ He).
           ++ by rewrite (flush_nonempty _ _ _ Hne).
      * intros i e Hlast. unfold db_at at 1. simpl.
        rewrite lookup_insert_eq. simpl.
        by rewrite flush_rows_lookup, Hlast.
    + intros Ho. rewrite list_lookup_insert_eq by done. f_equal.
      destruct (decide (buffer c = [])) as [He|Hne].
      * by rewrite (flush_empty _ _ _ He).
      * rewrite (flush_nonempty _ _ _ Hne). by destruct o.
  - apply cleanup_collector_unknown.
  - destruct (collectors w !! job) as [l|] eqn:Hl.
    + destruct (wf_lookup _ _ _ Hwf Hl) as [c Hc].
      rewrite (cleanup_collector_known _ _ _ _ _ Hl Hc). simpl.
      apply lookup_delete_eq.
    + by rewrite (cleanup_collector_unknown _ _ _ Hl).
Qed.

(** Two calls for a new job in the empty registry, with different
    database paths: one instance, on the database of the first call.  And a
    first call without a path: the instance is on the default database. *)
Lemma registry_lifecycle_witness :
  (let '(w1, l1) :=
     get_collector "aitk_db.db" empty_world "job" (Some "a.db") in
   let '(w2, l2) := get_collector "aitk_db.db" w1 "job" (Some "b.db") in
   l1 = Some 0%nat ∧
   heap w1 = [{| job_id := "job"; db_path := "a.db"; buffer := [];
                 buffer_size := 10 |}] ∧
   w2 = w1 ∧ l2 = l1) ∧
  (let '(w1, l1) := get_collector "aitk_db.db" empty_world "job" None in
   heap w1 = [{| job_id := "job"; db_path := "aitk_db.db"; buffer := [];
                 buffer_size := 10 |}]).
Proof.
  split.
  - pose proof (registry_lifecycle "aitk_db.db" empty_world "job"
                  (Some "a.db") (Some "b.db") WriteOk eq_refl) as H.
    destruct (get_collector "aitk_db.db" empty_world "job" (Some "a.db"))
      as [w1 l1].
    destruct (get_collector "aitk_db.db" w1 "job" (Some "b.db")) as [w2 l2].
    destruct H as (H1 & _ & H2 & H3 & _).
    destruct (H1 eq_refl)
      as (c & -> & -> & Hjob & Hbuf & Hsize & Hpath & _).
    specialize (Hpath "a.db" eq_refl ltac:(discriminate)).
    destruct c as [j p b n]. simpl in *. by subst.
  - pose proof (registry_lifecycle "aitk_db.db" empty_world "job"
                  None None WriteOk eq_refl) as H.
    destruct (get_collector "aitk_db.db" empty_world "job" None)
      as [w1 l1].
    destruct (get_collector "aitk_db.db" w1 "job" None) as [w2 l2].
    destruct H as (H1 & _).
    destruct (H1 eq_refl)
      as (c & -> & -> & Hjob & Hbuf & Hsize & _ & Hpath & _).
    specialize (Hpath (or_introl eq_refl)).
    destruct c as [j p b n]. simpl in *. by subst.
Defined.

(** ** Two threads *)

Lemma sched_step_at dp w ts i t :
  ts !! i = Some t →
  sched_step dp (w, ts) i =
  ((thread_step dp w t).1, <[i := (thread_step dp w t).2]> ts).
Proof.
  unfold sched_step. simpl. intros ->. by destruct (thread_step dp w t).
Qed.

Lemma sched_step_again dp w ts i t :
  (i < length ts)%nat →
  sched_step dp (w, <[i := t]> ts) i =
  ((thread_step dp w t).1, <[i := (thread_step dp w t).2]> ts).
Proof.
  intros Hlt. rewrite (sched_step_at dp w _ i t).
  - by rewrite list_insert_insert_eq.
  - by apply list_lookup_insert_eq.
Qed.

(** A thread that is not interrupted performs [get_collector]. *)
Lemma whole_call_is_get_collector dp w ts i job p :
  ts !! i = Some (call job p) →
  run dp (whole_call i) (w, ts) =
  ((get_collector dp w job p).1,
   <[i := at_pc (call job p) (Returned (get_collector dp w job p).2)]> ts).
Proof.
  intros Hi. assert (Hlt : (i < length ts)%nat) by by eapply lookup_lt_Some.
  unfold run, whole_call. cbn [foldl].
  rewrite (sched_step_at _ _ _ _ _ Hi).
  destruct (collectors w !! job) as [l|] eqn:Hl.
  - rewrite (get_collector_known _ _ _ _ _ Hl).
    unfold thread_step at 1 2. cbn. rewrite Hl. cbn [fst snd].
    rewrite (sched_step_again dp _ _ _ _ Hlt).
    unfold thread_step at 1 2. cbn. rewrite Hl.
    rewrite (sched_step_again dp _ _ _ _ Hlt).
    unfold thread_step at 1 2. cbn.
    rewrite (sched_step_again dp _ _ _ _ Hlt).
    done.
  - rewrite (get_collector_unknown _ _ _ _ Hl).
    unfold thread_step at 1 2. cbn. rewrite Hl. cbn [fst snd].
    rewrite (sched_step_again dp _ _ _ _ Hlt).
    unfold thread_step at 1 2. cbn.
    rewrite (sched_step_again dp _ _ _ _ Hlt).
    unfold thread_step at 1 2. cbn.
    rewrite (sched_step_again dp _ _ _ _ Hlt).
    unfold thread_step at 1 2. cbn. by rewrite lookup_insert_eq.
Qed.

Lemma run_app dp s1 s2 cfg : run dp (s1 ++ s2) cfg = run dp s2 (run dp s1 cfg).
Proof. unfold run. apply foldl_app. Qed.

(** C9, as the code has it.  [get_collector] takes no lock, so the
    registry does not serialize its callers.  When two calls for a new job
    do not overlap, in either order, the first constructs the only new
    collector, with its own [db_path], and both return its address. *)
Theorem serial_calls_share_one_engine (dp : string) (w : world)
    (job : string) (p0 p1 : option string) :
  collectors w !! job = None →
  let l := length (heap w) in
  let cfg01 := run dp (serial_schedule 0 1) (w, two_calls job p0 p1) in
  let cfg10 := run dp (serial_schedule 1 0) (w, two_calls job p0 p1) in
  (returned cfg01 0 = Some (Some l) ∧ returned cfg01 1 = Some (Some l) ∧
   heap cfg01.1 = heap w ++ [Collector.init job (resolve_db_path dp p0)] ∧
   collectors cfg01.1 = <[job := l]> (collectors w)) ∧
  (returned cfg10 0 = Some (Some l) ∧ returned cfg10 1 = Some (Some l) ∧
   heap cfg10.1 = heap w ++ [Collector.init job (resolve_db_path dp p1)] ∧
   collectors cfg10.1 = <[job := l]> (collectors w)).
Proof.
  intros Hnone l. unfold serial_schedule, two_calls. cbv zeta.
  rewrite !run_app.
  rewrite (whole_call_is_get_collector dp w [call job p0; call job p1] 0
             job p0 eq_refl).
  rewrite (whole_call_is_get_collector dp w [call job p0; call job p1] 1
             job p1 eq_refl).
  rewrite !(get_collector_unknown _ _ _ _ Hnone). cbn [fst snd].
  cbn [insert list_insert].
  erewrite (whole_call_is_get_collector dp _ _ 1 job p1); [|reflexivity].
  erewrite (whole_call_is_get_collector dp _ _ 0 job p0); [|reflexivity].
  rewrite !(get_collector_known dp _ job _ l) by (simpl; apply lookup_insert_eq).
  done.
Qed.

(** Two calls, one after the other, for a job the empty registry does not
    know. *)
Lemma serial_calls_share_one_engine_witness :
  let cfg :=
    run "aitk_db.db" (serial_schedule 0 1)
      (empty_world, two_calls "job" None None) in
  returned cfg 0 = Some (Some 0%nat) ∧ returned cfg 1 = Some (Some 0%nat).
Proof.
  destruct (serial_calls_share_one_engine "aitk_db.db" empty_world "job"
              None None eq_refl) as [(H0 & H1 & _) _].
  split; [exact H0|exact H1].
Defined.

(** C9 fails as stated: both threads test the registry before either
    stores into it; each constructs a collector, the second store replaces
    the first, and the two callers hold different instances. *)
Lemma racing_calls_construct_twice_counterexample :
  let cfg :=
    run "aitk_db.db" racing_schedule (empty_world, two_calls "job" None None) in
  returned cfg 0 = Some (Some 0%nat) ∧ returned cfg 1 = Some (Some 1%nat) ∧
  length (heap cfg.1) = 2%nat ∧ collectors cfg.1 !! "job" = Some 1%nat.
Proof. vm_compute. done. Qed.

End ManagerFacts.

(** * Properties of the configuration store *)

Module DynamicConfigFacts.
Import Py DynamicConfig DynamicConfigSpec.

(** ** The reload check *)

Lemma check_and_update_missing s fs :
  files fs !! config_file s = None →
  check_and_update s fs = (CDict ∅, s, log fs (OpExists (config_file s))).
Proof.
  unfold check_and_update, exists_. intros Hf. simpl.
  rewrite bool_decide_eq_false_2; [done|]. rewrite Hf. by intros [? ?].
Qed.

Lemma check_and_update_unchanged s fs f :
  files fs !! config_file s = Some f →
  SFleb (mtime f) (last_modified s) = true →
  check_and_update s fs =
  (config_cache s, s,
   log (log fs (OpExists (config_file s))) (OpGetmtime (config_file s))).
Proof.
  unfold check_and_update, exists_. intros Hf Hle. simpl.
  rewrite bool_decide_eq_true_2 by (by rewrite Hf). simpl.
  by rewrite Hf, Hle.
Qed.

Lemma load_config_existing s fs f :
  files fs !! config_file s = Some f →
  load_config s fs =
  (loaded (content f),
   log (log fs (OpExists (config_file s))) (OpRead (config_file s))).
Proof.
  unfold load_config, exists_. intros Hf. simpl.
  rewrite bool_decide_eq_true_2 by (by rewrite Hf). simpl.
  rewrite Hf. by destruct (content f).
Qed.

Lemma check_and_update_advanced s fs f :
  files fs !! config_file s = Some f →
  SFleb (mtime f) (last_modified s) = false →
  check_and_update s fs =
  (loaded (content f), set_cache s (mtime f) (loaded (content f)),
   log (log (log (log fs (OpExists (config_file s)))
                 (OpGetmtime (config_file s)))
            (OpExists (config_file s)))
       (OpRead (config_file s))).
Proof.
  unfold check_and_update, exists_. intros Hf Hle. simpl.
  rewrite bool_decide_eq_true_2 by (by rewrite Hf). simpl.
  rewrite Hf, Hle.
  by rewrite (load_config_existing s _ f) by done.
Qed.

Lemma getter_missing key get s fs default :
  getter key = Some get →
  files fs !! config_file s = None →
  get s fs default = (Ok default, s, log fs (OpExists (config_file s))).
Proof.
  unfold getter. intros Hget Hf.
  repeat case_decide; simplify_eq;
    unfold get_sample_every, get_save_every, get_log_every;
    rewrite (check_and_update_missing _ _ Hf); simpl;
    rewrite lookup_empty; try done.
  - by destruct (positive_int default).
  - destruct default; try done; by destruct (positive_int _).
  - destruct default; try done; by destruct (positive_int _).
Qed.

(** C4, as the code has it.  [check_and_update] asks whether the file
    exists.  If it does not, the answer is the empty dictionary: the store is
    unchanged, no file is created, and each getter returns the caller's
    default.  If the modification time is not later than the one last
    observed, the answer is the cached configuration, and the only calls made
    are [exists] and [getmtime]: the content is not read.  If it is later,
    the file is read once, the cache becomes what was read, the last observed
    time becomes the file's, and the answer is what was read; a positive
    integer read for [sample_every] is what [get_sample_every] returns.  A
    new store has observed time 0. *)
Theorem reload_protocol (s : dynamic_config) (fs : filesystem) :
  let p := config_file s in
  let '(cfg, s', fs') := check_and_update s fs in
  (files fs !! p = None →
     cfg = CDict ∅ ∧ s' = s ∧ files fs' = files fs ∧
     trace fs' = trace fs ++ [OpExists p] ∧
     ∀ key get default, getter key = Some get →
       (get s fs default).1.1 = Ok default ∧
       files (get s fs default).2 !! p = None) ∧
  (∀ f, files fs !! p = Some f →
     SFleb (mtime f) (last_modified s) = true →
     cfg = config_cache s ∧ s' = s ∧ files fs' = files fs ∧
     trace fs' = trace fs ++ [OpExists p; OpGetmtime p]) ∧
  (∀ f, files fs !! p = Some f →
     SFleb (mtime f) (last_modified s) = false →
     cfg = loaded (content f) ∧ config_cache s' = loaded (content f) ∧
     last_modified s' = mtime f ∧ config_file s' = p ∧
     files fs' = files fs ∧
     trace fs' = trace fs ++ [OpExists p; OpGetmtime p; OpExists p; OpRead p] ∧
     ∀ d n default, content f = YamlDict d →
       d !! "sample_every" = Some (PInt n) → 0 < n →
       (get_sample_every s fs default).1.1 = Ok (PInt n)) ∧
  (∀ job root fs0, last_modified (init job root fs0).1 = S754_zero false).
Proof.
  intros p. subst p.
  destruct (files fs !! config_file s) as [f|] eqn:Hf.
  - destruct (SFleb (mtime f) (last_modified s)) eqn:Hle.
    + rewrite (check_and_update_unchanged _ _ _ Hf Hle).
      split_and!; try done.
      * intros g [= <-] _. simpl. by rewrite <- !app_assoc.
      * intros g [= <-] ?. congruence.
    + rewrite (check_and_update_advanced _ _ _ Hf Hle).
      split_and!; try done.
      * intros g [= <-] ?. congruence.
      * intros g [= <-] _. split_and!; try done.
        -- simpl. by rewrite <- !app_assoc.
        -- intros d n default Hd Hn Hpos. unfold get_sample_every.
           rewrite (check_and_update_advanced _ _ _ Hf Hle), Hd. simpl.
           rewrite Hn. unfold positive_int. simpl.
           by rewrite (proj2 (Z.ltb_lt 0 n) Hpos).
  - rewrite (check_and_update_missing _ _ Hf).
    split_and!; try done.
    intros _. split_and!; try done.
    intros key get default Hget.
    by rewrite (getter_missing _ _ _ _ default Hget Hf).
Qed.

(** The three cases on sample data: the new store of [job1] reads the
    file that construction wrote; the same store then serves its cache; and
    without the file it answers the default. *)
Lemma reload_protocol_witness :
  let p := config_file job1_store in
  let '(cfg, s', fs') := check_and_update job1_store job1_fs in
  cfg = CDict (default_config noon) ∧ last_modified s' = noon ∧
  (check_and_update s' fs').1.1 = cfg ∧
  trace (check_and_update s' fs').2 = trace fs' ++ [OpExists p; OpGetmtime p] ∧
  (check_and_update s' (remove_file fs' p)).1.1 = CDict ∅.
Proof.
  intros p.
  pose proof (reload_protocol job1_store job1_fs) as H1.
  destruct (check_and_update job1_store job1_fs) as [[cfg s'] fs'] eqn:Hc.
  destruct H1 as (_ & _ & H1 & _).
  destruct (H1 (File noon (YamlDict (default_config noon))) eq_refl eq_refl)
    as (Hcfg & Hcache & Hlast & _).
  assert (Hs : s' = (check_and_update job1_store job1_fs).1.2)
    by (by rewrite Hc).
  assert (Hfs : fs' = (check_and_update job1_store job1_fs).2)
    by (by rewrite Hc).
  pose proof (reload_protocol s' fs') as H2.
  pose proof (reload_protocol s' (remove_file fs' p)) as H3.
  destruct (check_and_update s' fs') as [[cfg2 s2] fs2].
  destruct (check_and_update s' (remove_file fs' p)) as [[cfg3 s3] fs3].
  destruct H2 as (_ & H2 & _). destruct H3 as (H3 & _).
  destruct (H2 (File noon (YamlDict (default_config noon))))
    as (Hcfg2 & _ & _ & Htrace2).
  { rewrite Hs, Hfs. reflexivity. }
  { rewrite Hs. reflexivity. }
  destruct H3 as (Hcfg3 & _).
  { rewrite Hs, Hfs. reflexivity. }
  cbn [fst snd]. split_and!; try done.
  - by rewrite Hcfg2, Hcache.
  - rewrite Htrace2. by rewrite Hs.
Defined.

(** C4 fails as stated.  The store of [job1] is created, the operator
    removes its file, and [get_sample_every(250)] returns 250 without
    creating the file again.  And a file that exists before the store, with
    the epoch as its modification time, is not read by the first check of a
    new store: [get_sample_every(100)] returns 100 although the file says
    25. *)
Lemma missing_file_is_not_recreated_counterexample :
  let p := config_file job1_store in
  (let '(r, s', fs') :=
     get_sample_every job1_store (remove_file job1_fs p) (PInt 250) in
   is_Some (files job1_fs !! p) ∧ r = Ok (PInt 250) ∧
   files fs' !! p = None) ∧
  (let '(s, fs) := init "job1" "/out/job1" epoch_fs in
   (get_sample_every s fs (PInt 100)).1.1 = Ok (PInt 100)).
Proof. vm_compute. split_and!; [by eexists|done|done|done]. Qed.

(** ** Validation of the cadence values *)

(** Except for the boolean [true], a value that is present but null, not
    an integer or not positive makes each getter return the caller's
    default. *)
Lemma invalid_cadence_falls_back key get s fs d v default :
  getter key = Some get →
  (check_and_update s fs).1.1 = CDict d →
  d !! key = Some v →
  invalid_cadence v = true → v ≠ PBool true →
  (get s fs default).1.1 = Ok default.
Proof.
  unfold getter. intros Hget Hcfg Hv Hinv Hne.
  repeat case_decide; simplify_eq;
    unfold get_sample_every, get_save_every, get_log_every;
    destruct (check_and_update s fs) as [[cfg s'] fs']; simpl in *; subst cfg;
    simpl; rewrite Hv; simpl;
    destruct v as [|[]|z| | |]; try done; simpl in *;
    unfold positive_int; simpl; by rewrite (proj2 (Z.ltb_ge 0 z)) by lia.
Qed.

(** C6 fails on the document [sample_every: true]: the value is no
    integer of the document, but [isinstance(True, int)] holds and
    [True > 0], so [get_sample_every(100)] returns [True] and not 100. *)
Lemma boolean_true_passes_validation :
  let p := config_file job1_store in
  (get_sample_every job1_store (edit_file job1_fs p sample_every_true)
     (PInt 100)).1.1 = Ok (PBool true) ∧
  invalid_cadence (PBool true) = true.
Proof. vm_compute. done. Qed.

(** ** Construction *)

Lemma path_join_relative (root name : string) :
  startswith_sep name = false → root ≠ "" → endswith_sep root = false →
  path_join root name = root +:+ "/" +:+ name.
Proof.
  unfold path_join. intros -> Hne ->. by destruct root.
Qed.

Lemma default_config_lookup now :
  default_config now !! "sample_every" = Some (PInt 100) ∧
  default_config now !! "save_every" = Some PNone ∧
  default_config now !! "log_every" = Some PNone ∧
  default_config now !! "last_updated" = Some (PFloat now).
Proof. unfold default_config. split_and!; by simplify_map_eq. Qed.

Lemma get_save_every_null s fs f d default :
  files fs !! config_file s = Some f →
  content f = YamlDict d → d !! "save_every" = Some PNone →
  config_cache s = CDict ∅ →
  (get_save_every s fs default).1.1 = Ok default.
Proof.
  intros Hf Hd Hnull Hcache. unfold get_save_every.
  destruct (SFleb (mtime f) (last_modified s)) eqn:Hle.
  - rewrite (check_and_update_unchanged _ _ _ Hf Hle), Hcache. simpl.
    rewrite lookup_empty.
    destruct default; try done; by destruct (positive_int _).
  - rewrite (check_and_update_advanced _ _ _ Hf Hle), Hd. simpl.
    by rewrite Hnull.
Qed.

Lemma check_and_update_files s fs :
  files (check_and_update s fs).2 = files fs.
Proof.
  destruct (files fs !! config_file s) as [f|] eqn:Hf.
  - destruct (SFleb (mtime f) (last_modified s)) eqn:Hle.
    + by rewrite (check_and_update_unchanged _ _ _ Hf Hle).
    + by rewrite (check_and_update_advanced _ _ _ Hf Hle).
  - by rewrite (check_and_update_missing _ _ Hf).
Qed.

Lemma get_save_every_files s fs default :
  files (get_save_every s fs default).2 = files fs.
Proof.
  unfold get_save_every. pose proof (check_and_update_files s fs) as H.
  destruct (check_and_update s fs) as [[cfg s'] fs'].
  by destruct (config_get cfg "save_every" default).
Qed.

(** C7, as the code has it.  The configuration file of a store is
    [os.path.join(save_root, 'dynamic_config.yaml')]: the job name is kept in
    the store but is no part of the path.  When that file does not exist and
    can be written, construction creates it with [sample_every: 100],
    [save_every: null], [log_every: null] and the time of the write; an
    existing file is left alone.  After a construction that found no file,
    [get_save_every(default)] returns the default and leaves the files as
    construction left them. *)
Theorem init_creates_defaults (job root : string) (fs : filesystem)
    (default : value) :
  let p := path_join root "dynamic_config.yaml" in
  let '(s, fs1) := init job root fs in
  config_file s = p ∧
  (root ≠ "" → endswith_sep root = false →
     p = root +:+ "/dynamic_config.yaml") ∧
  (files fs !! p = None → p ∉ unwritable fs →
     files fs1 !! p =
       Some (File (clock fs) (YamlDict (default_config (clock fs)))) ∧
     default_config (clock fs) !! "sample_every" = Some (PInt 100) ∧
     default_config (clock fs) !! "save_every" = Some PNone ∧
     default_config (clock fs) !! "log_every" = Some PNone) ∧
  (is_Some (files fs !! p) → files fs1 = files fs) ∧
  (files fs !! p = None →
     (get_save_every s fs1 default).1.1 = Ok default ∧
     files (get_save_every s fs1 default).2 = files fs1).
Proof.
  intros p. unfold init, ensure_config_file, exists_. simpl. fold p.
  split; [done|]. split; [by apply path_join_relative|].
  destruct (files fs !! p) as [f|] eqn:Hf.
  - rewrite bool_decide_eq_true_2 by done. split_and!; try done.
  - rewrite bool_decide_eq_false_2 by (by intros [? ?]).
    unfold save_config. simpl. fold p.
    destruct (decide (p ∈ unwritable fs)) as [Hun|Hw].
    + rewrite bool_decide_eq_true_2 by done.
      split_and!; try done.
      intros _. split; [|apply get_save_every_files].
        unfold get_save_every. erewrite check_and_update_missing; [|done].
        simpl. rewrite lookup_empty.
        destruct default; try done; by destruct (positive_int _).
    + rewrite bool_decide_eq_false_2 by done.
      split_and!; try done.
      * intros _ _. simpl. rewrite lookup_insert_eq.
        split; [done|].
        by destruct (default_config_lookup (clock fs)) as (? & ? & ? & _).
      * intros _. split; [|apply get_save_every_files].
        eapply get_save_every_null; simpl;
          [apply lookup_insert_eq|done| |done].
        apply default_config_lookup.
Qed.

(** A store for [job1] on an empty, writable file system: the file is
    created with the defaults. *)
Lemma init_creates_defaults_witness :
  files (init "job1" "/out/job1" empty_fs).2 !! "/out/job1/dynamic_config.yaml"
  = Some (File noon (YamlDict (default_config noon))).
Proof.
  pose proof (init_creates_defaults "job1" "/out/job1" empty_fs (PInt 500))
    as H.
  destruct (init "job1" "/out/job1" empty_fs) as [s fs1].
  destruct H as (_ & _ & H & _).
  apply H; [reflexivity|]. vm_compute. intros [=].
Defined.

(** C7 fails as stated.  For job [job1] and root [/out] the file of the
    store is [/out/dynamic_config.yaml]: the job name is not in the path.
    And where the file cannot be opened for writing, construction leaves it
    absent. *)
Lemma config_path_omits_job_counterexample :
  config_file (init "job1" "/out" empty_fs).1 = "/out/dynamic_config.yaml" ∧
  config_file (init "job1" "/out" empty_fs).1 ≠
    "/out/job1/dynamic_config.yaml" ∧
  files (init "job1" "/out/job1" locked_fs).2
    !! config_file (init "job1" "/out/job1" locked_fs).1 = None.
Proof. vm_compute. done. Qed.

End DynamicConfigFacts.

(** * Further properties of the collector *)

Module AutoMetricsFacts.
Import Py Collector CollectorSpec CollectorFacts AutoMetrics AutoMetricsSpec.

(** ** Events and failed writes *)

(** X1.  Whatever the outcomes of the writes, no reported event is lost:
    after any sequence of calls, the last event reported under an id is
    either still in the buffer, as the last one with that id, or it is the
    row of that id while the buffer has no event with that id. *)
Theorem no_event_is_lost (hash : string → Z) (job path : string)
    (db0 : database) (calls : list (report * write_outcome)) :
  let '(c, db) := run_reports hash (Collector.init job path) db0 calls in
  ∀ i e, last_with_id i (all_appended hash job calls) = Some e →
    last_with_id i (buffer c) = Some e ∨
    (last_with_id i (buffer c) = None ∧ rows db !! i = Some e).
Proof.
  pose proof (run_reports_keeps_events hash (Collector.init job path) db0 calls)
    as [_ Hkeep].
  destruct (run_reports hash (Collector.init job path) db0 calls) as [c db].
  simpl in Hkeep. intros i e Hlast.
  assert (Hi : upsert_all (buffer c) (rows db) !! i = Some e).
  { by rewrite Hkeep, lookup_upsert_all, Hlast. }
  rewrite lookup_upsert_all in Hi.
  destruct (last_with_id i (buffer c)); [by left|by right].
Qed.

Lemma flush_all_cons c db o outcomes :
  flush_all c db (o :: outcomes) =
  flush_all (flush c db o).1 (flush c db o).2 outcomes.
Proof. unfold flush_all. simpl. by destruct (flush c db o). Qed.

Lemma flush_all_empty c db outcomes :
  buffer c = [] → flush_all c db outcomes = (c, db).
Proof.
  intros Hb. induction outcomes as [|o outcomes IH]; [done|].
  by rewrite flush_all_cons, (flush_empty _ _ _ Hb).
Qed.

(** X2.  Flushing again after failed writes converges: if some attempt of
    a run of flushes succeeds, the buffer ends empty, the rows are those one
    successful flush would have written, and the transactions opened are the
    attempts up to the first success, each with the whole buffer as its
    batch. *)
Theorem flush_retry_converges (c : collector) (db : database)
    (outcomes : list write_outcome) :
  WriteOk ∈ outcomes → buffer c ≠ [] →
  let '(c', db') := flush_all c db outcomes in
  buffer c' = [] ∧
  rows db' = upsert_all (buffer c) (rows db) ∧
  attempts db' =
    attempts db ++ map (λ o, (buffer c, o)) (upto_first_ok outcomes).
Proof.
  revert c db. induction outcomes as [|o outcomes IH]; intros c db Hin Hne.
  - by apply elem_of_nil in Hin.
  - rewrite flush_all_cons, (flush_nonempty _ _ _ Hne). cbn [fst snd].
    assert (o = WriteOk ∨ o ≠ WriteOk) as [->|Ho]
      by (destruct o; auto; right; discriminate).
    + rewrite flush_all_empty by done. simpl. done.
    + assert (Hin' : WriteOk ∈ outcomes).
      { apply elem_of_cons in Hin as [?|?]; [congruence|done]. }
      replace (if completed o then set_buffer c [] else c) with c
        by (by destruct o).
      specialize (IH c
        {| rows := if committed o then upsert_all (buffer c) (rows db)
                   else rows db;
           attempts := attempts db ++ [(buffer c, o)] |} Hin' Hne).
      destruct (flush_all c _ outcomes) as [c' db'].
      destruct IH as (Hb & Hr & Ha). simpl in *.
      split_and!; [done| |].
      * rewrite Hr. destruct (committed o); [apply upsert_all_idemp|done].
      * rewrite Ha, <- app_assoc. by destruct o.
Qed.

(** Witness of X2: a failed connection, a failed close, then a success. *)
Lemma flush_retry_converges_witness :
  let '(c', db') :=
    flush_all nine_buffered empty_db [FailConnect; FailClose; WriteOk; WriteOk]
  in buffer c' = [] ∧ length (attempts db') = 3%nat.
Proof.
  pose proof (flush_retry_converges nine_buffered empty_db
                [FailConnect; FailClose; WriteOk; WriteOk]) as H.
  destruct (flush_all nine_buffered empty_db _) as [c' db'].
  destruct H as (Hb & _ & Ha).
  - vm_compute. do 2 apply list_elem_of_further. apply list_elem_of_here.
  - vm_compute. discriminate.
  - split; [exact Hb|]. rewrite Ha. reflexivity.
Defined.

(** ** Ids across jobs *)

Lemma append_cons (x : ascii) (a b : string) :
  String x a +:+ b = String x (a +:+ b).
Proof. reflexivity. Qed.

Lemma append_assoc_s (a b c : string) : (a +:+ b) +:+ c = a +:+ b +:+ c.
Proof.
  induction a as [|x a IH]; [done|]. rewrite !append_cons. by rewrite IH.
Qed.

Lemma append_nil_r (a : string) : a +:+ "" = a.
Proof. induction a as [|x a IH]; [done|]. rewrite append_cons. by rewrite IH. Qed.

Lemma length_append_s (a b : string) :
  String.length (a +:+ b) = (String.length a + String.length b)%nat.
Proof.
  induction a as [|x a IH]; [done|]. rewrite append_cons. simpl. by rewrite IH.
Qed.

(** Two ways of cutting one string. *)
Lemma append_eq_split (a b c d : string) :
  a +:+ b = c +:+ d →
  (∃ x, a = c +:+ x ∧ d = x +:+ b) ∨ (∃ x, c = a +:+ x ∧ b = x +:+ d).
Proof.
  revert c. induction a as [|y a IH]; intros c.
  - intros Heq. right. by exists c.
  - destruct c as [|z c].
    + intros Heq. left. by exists (String y a).
    + rewrite !append_cons. intros [= -> Heq].
      destruct (IH c Heq) as [(x & -> & ->)|(x & -> & ->)].
      * left. by exists x.
      * right. by exists x.
Qed.

Lemma event_id_shape job s t n :
  ∃ rest, event_id job s t n = job +:+ String "_" rest.
Proof. destruct t; eexists; reflexivity. Qed.

(** X3.  Ids are not separated by job: a system metric of job [job]
    whose name spells a step and ["_system_"] has the id of a system metric
    of the job whose id is [job] followed by ["_"], the step and
    ["_system"]. *)
Theorem ids_collide_across_jobs (job : string) (s s' : Z) (key : string) :
  event_id job s System (str_int s' +:+ "_system_" +:+ key) =
  event_id (job +:+ "_" +:+ str_int s +:+ "_system") s' System key ∧
  job ≠ job +:+ "_" +:+ str_int s +:+ "_system".
Proof.
  split.
  - unfold event_id, id_system. by rewrite !append_assoc_s.
  - intros H. assert (Hlen := f_equal String.length H).
    rewrite !length_append_s in Hlen. simpl in Hlen. lia.
Qed.

(** X4.  Two events of different jobs can only share an id when the id
    of one job is the id of the other followed by ["_"] and more; otherwise
    an id determines the job, the step, the type and the sanitized name. *)
Theorem shared_id_relates_jobs (j1 j2 : string) (s1 s2 : Z)
    (t1 t2 : metric_type) (n1 n2 : string) :
  event_id j1 s1 t1 n1 = event_id j2 s2 t2 n2 →
  (j1 = j2 ∧ s1 = s2 ∧ t1 = t2 ∧ id_name t1 n1 = id_name t2 n2) ∨
  (∃ x, j1 = j2 +:+ String "_" x) ∨ (∃ x, j2 = j1 +:+ String "_" x).
Proof.
  intros Heq.
  destruct (event_id_shape j1 s1 t1 n1) as [r1 H1].
  destruct (event_id_shape j2 s2 t2 n2) as [r2 H2].
  assert (Hcut : j1 +:+ String "_" r1 = j2 +:+ String "_" r2) by congruence.
  destruct (append_eq_split _ _ _ _ Hcut) as [(x & -> & Hx)|(x & -> & Hx)].
  - destruct x as [|c x]; simpl in Hx.
    + left. rewrite append_nil_r in *. split; [done|].
      by apply (event_id_inj j2).
    + injection Hx as <- _. right; left. by exists x.
  - destruct x as [|c x]; simpl in Hx.
    + left. rewrite append_nil_r in *. split; [done|].
      by apply (event_id_inj j1).
    + injection Hx as <- _. right; right. by exists x.
Qed.

(** Witness of X4: the id shared by the jobs [x] and [x_1_system]. *)
Lemma shared_id_relates_jobs_witness :
  ∃ x, "x_1_system" = "x" +:+ String "_" x.
Proof.
  destruct (shared_id_relates_jobs "x" "x_1_system" 1 2 System System
              "2_system_k" "k" eq_refl)
    as [(Hj & _)|[[x Hx]|[x Hx]]].
  - discriminate Hj.
  - apply (f_equal String.length) in Hx. rewrite length_append_s in Hx.
    simpl in Hx. lia.
  - by exists x.
Defined.

(** ** One call *)

Lemma for_each_length {A} (body : A → result (list event)) (items : list A) :
  (∀ x evs, body x = Ok evs → (length evs ≤ 1)%nat) →
  (length (for_each body items []).1 ≤ length items)%nat.
Proof.
  intros Hbody. induction items as [|x rest IH]; simpl; [done|].
  destruct (body x) as [evs|err] eqn:Hx; simpl; [|lia].
  rewrite for_each_app. simpl. rewrite length_app.
  specialize (Hbody x evs Hx). lia.
Qed.

Lemma loss_item_length job r kv evs :
  loss_item job r kv = Ok evs → (length evs ≤ 1)%nat.
Proof.
  destruct kv as [key v]. unfold loss_item.
  repeat case_match; intros; simplify_eq/=; lia.
Qed.

Lemma lr_item_length job r evs :
  lr_item job r = Ok evs → (length evs ≤ 1)%nat.
Proof.
  unfold lr_item. repeat case_match; intros; simplify_eq/=; lia.
Qed.

Lemma kwargs_item_length hash job r kv evs :
  kwargs_item hash job r kv = Ok evs → (length evs ≤ 1)%nat.
Proof.
  destruct kv as [key v]. unfold kwargs_item, except_value_type.
  destruct v; repeat case_match; intros; simplify_eq/=; lia.
Qed.

(** X6.  One call appends at most one event for each loss, one for the
    learning rate and one for each keyword argument, and every event it
    appends carries the job of the collector and the step and the one
    timestamp of the call. *)
Theorem one_call_events (hash : string → Z) (job : string) (r : report) :
  (length (appended hash job r)
   ≤ length (loss_dict r) + 1 + length (kwargs r))%nat ∧
  ∀ e, e ∈ appended hash job r →
    ev_job_id e = job ∧ ev_step e = step r ∧ ev_timestamp e = timestamp r.
Proof.
  split.
  - unfold appended, append_metrics.
    pose proof (for_each_length (loss_item job r) (loss_dict r)
                  (loss_item_length job r)) as H1.
    destruct (for_each (loss_item job r) (loss_dict r) []) as [l1 [err|]];
      simpl in *; [lia|].
    pose proof (lr_item_length job r) as H2.
    destruct (lr_item job r) as [evs|err]; simpl; [|lia].
    specialize (H2 evs eq_refl).
    rewrite for_each_app. simpl. rewrite !length_app.
    pose proof (for_each_length (kwargs_item hash job r) (kwargs r)
                  (kwargs_item_length hash job r)) as H3.
    lia.
  - intros e He. destruct (appended_origin _ _ _ _ He) as (_ & ? & ? & ? & _).
    done.
Qed.

(** ** Automatic metrics *)




(** ** The default database *)

(** X7.  For a project root that is not empty and does not end in [/],
    the default database is [root/aitk_db.db] or [root/ui/aitk_db.db]; it is
    the one under [ui/] exactly when that one exists and the one in the root
    does not; and it exists whenever one of the two does. *)
Theorem default_db_path_choice (path_exists : string → bool)
    (root : string) :
  root ≠ "" → DynamicConfig.endswith_sep root = false →
  let root_db := root +:+ "/aitk_db.db" in
  let ui_db := root +:+ "/ui/aitk_db.db" in
  let p := get_default_db_path path_exists root in
  (p = root_db ∨ p = ui_db) ∧
  (p = ui_db ↔ path_exists root_db = false ∧ path_exists ui_db = true) ∧
  (path_exists root_db = true ∨ path_exists ui_db = true →
   path_exists p = true).
Proof.
  intros Hne Hsep root_db ui_db p.
  assert (Hroot : DynamicConfig.path_join root "aitk_db.db" = root_db)
    by (by apply DynamicConfigFacts.path_join_relative).
  assert (Hui : DynamicConfig.path_join (DynamicConfig.path_join root "ui")
                  "aitk_db.db" = ui_db).
  { rewrite (DynamicConfigFacts.path_join_relative root "ui") by done.
    rewrite DynamicConfigFacts.path_join_relative.
    - unfold ui_db. by rewrite !append_assoc_s.
    - done.
    - intros H. apply (f_equal String.length) in H.
      rewrite length_append_s in H. simpl in H. lia.
    - clear. induction root as [|c root IH]; [done|].
      rewrite append_cons.
      change (DynamicConfig.endswith_sep (String c (root +:+ "/" +:+ "ui")))
        with (match root +:+ "/" +:+ "ui" with
              | "" => Ascii.eqb c "/"
              | _ => DynamicConfig.endswith_sep (root +:+ "/" +:+ "ui")
              end).
      destruct root; [done|]. rewrite append_cons in *. exact IH. }
  assert (Hdiff : root_db ≠ ui_db).
  { unfold root_db, ui_db. intros H. by apply (inj (String.app root)) in H. }
  subst p. unfold get_default_db_path. rewrite Hroot, Hui.
  destruct (path_exists root_db) eqn:H1; simpl.
  - split_and!; [by left| |done]. split; [done|]. by intros [? _].
  - destruct (path_exists ui_db) eqn:H2.
    + split_and!; [by right|done|done].
    + split_and!; [by left| |by intros [?|?]].
      split; [done|]. by intros [_ ?].
Qed.

(** Witness of X7: only the database under [ui/] exists. *)
Lemma default_db_path_choice_witness :
  get_default_db_path only_ui_db "/srv/aitk" = "/srv/aitk/ui/aitk_db.db".
Proof.
  destruct (default_db_path_choice only_ui_db "/srv/aitk") as (_ & H & _);
    [discriminate|reflexivity|].
  apply H. split; reflexivity.
Defined.

End AutoMetricsFacts.

(** * Further properties of the registry *)

Module ManagerOpsFacts.
Import Py Collector Manager ManagerSpec ManagerOps ManagerOpsSpec.
Import CollectorFacts ManagerFacts.

(** ** Invariants of the registry *)

(** Replacing an object by one of the same job and threshold. *)
Lemma update_heap_sound w l c c' cs ds :
  heap w !! l = Some c → job_id c' = job_id c →
  (∀ job l', cs !! job = Some l' → collectors w !! job = Some l') →
  registry_sound w →
  registry_sound {| collectors := cs; heap := <[l := c']> (heap w); dbs := ds |}.
Proof.
  intros Hl Hjob Hcs Hsound job l' Hreg. simpl in *.
  destruct (Hsound job l' (Hcs _ _ Hreg)) as (c0 & Hc0 & Hj0).
  destruct (decide (l' = l)) as [->|Hne].
  - exists c'. rewrite list_lookup_insert_eq by (by eapply lookup_lt_Some).
    split; [done|]. congruence.
  - exists c0. by rewrite list_lookup_insert_ne.
Qed.

Lemma update_heap_thresholds w l c c' cs ds :
  heap w !! l = Some c → buffer_size c' = buffer_size c →
  thresholds_ten w →
  thresholds_ten {| collectors := cs; heap := <[l := c']> (heap w); dbs := ds |}.
Proof.
  intros Hl Hsize Hten l' c0. simpl.
  destruct (decide (l' = l)) as [->|Hne].
  - rewrite list_lookup_insert_eq by (by eapply lookup_lt_Some).
    intros [= <-]. rewrite Hsize. by eapply Hten.
  - rewrite list_lookup_insert_ne by done. apply Hten.
Qed.

Lemma cleanup_at_collectors w l o :
  collectors (cleanup_at w l o) = collectors w.
Proof.
  unfold cleanup_at. destruct (heap w !! l) as [c|]; [|done].
  unfold cleanup. by destruct (flush c _ o).
Qed.

Lemma cleanup_at_unfold w l o c :
  heap w !! l = Some c →
  cleanup_at w l o =
  {| collectors := collectors w;
     heap := <[l := (flush c (db_at w (db_path c)) o).1]> (heap w);
     dbs := <[db_path c := (flush c (db_at w (db_path c)) o).2]> (dbs w) |}.
Proof.
  unfold cleanup_at, cleanup. intros ->. by destruct (flush c _ o).
Qed.

Lemma cleanup_at_sound w l o : registry_sound w → registry_sound (cleanup_at w l o).
Proof.
  intros Hs. destruct (heap w !! l) as [c|] eqn:Hl.
  - rewrite (cleanup_at_unfold _ _ _ _ Hl).
    eapply update_heap_sound; [done|apply flush_job_id|done|done].
  - unfold cleanup_at. by rewrite Hl.
Qed.

Lemma cleanup_at_thresholds w l o :
  thresholds_ten w → thresholds_ten (cleanup_at w l o).
Proof.
  intros Hs. destruct (heap w !! l) as [c|] eqn:Hl.
  - rewrite (cleanup_at_unfold _ _ _ _ Hl).
    eapply update_heap_thresholds; [done|apply flush_buffer_size|done].
  - unfold cleanup_at. by rewrite Hl.
Qed.

Lemma cleanup_all_thresholds w order :
  thresholds_ten w → thresholds_ten (cleanup_all w order).
Proof.
  unfold cleanup_all. revert w.
  induction order as [|jo order IH]; intros w Hten.
  - intros l c. simpl. apply Hten.
  - simpl. apply IH. destruct (collectors w !! jo.1); [|done].
    by apply cleanup_at_thresholds.
Qed.

(** X8.  In every world reachable from the empty registry by
    [get_collector], [cleanup_collector], [cleanup_all] and calls of
    [log_step_metrics] on collectors: each registered address holds a
    collector whose [job_id] is the job it is registered under, no collector
    is registered under two jobs, and every collector has the threshold
    10. *)
Theorem reachable_registry_invariant (hash : string → Z) (dp : string)
    (w : world) :
  reachable hash dp w →
  registry_sound w ∧ registry_injective w ∧ thresholds_ten w.
Proof.
  induction 1 as [|w job p _ (Hs & Hi & Ht)|w job o _ (Hs & Hi & Ht)
                 |w order _ (Hs & Hi & Ht)|w l r o w' res _ (Hs & Hi & Ht) Hlog].
  - split_and!.
    + intros job l Hl. simpl in Hl. by rewrite lookup_empty in Hl.
    + intros j1 j2 l Hl. simpl in Hl. by rewrite lookup_empty in Hl.
    + intros l c Hl. simpl in Hl. by rewrite lookup_nil in Hl.
  - destruct (collectors w !! job) as [l|] eqn:Hl.
    + by rewrite (get_collector_known _ _ _ _ _ Hl).
    + rewrite (get_collector_unknown _ _ _ _ Hl). simpl.
      assert (Hfresh : ∀ j l', collectors w !! j = Some l' →
                (l' < length (heap w))%nat).
      { intros j l' Hj. destruct (Hs j l' Hj) as (c & Hc & _).
        by eapply lookup_lt_Some. }
      split_and!.
      * intros j l'. simpl. destruct (decide (job = j)) as [->|Hne].
        -- rewrite lookup_insert_eq. intros [= <-].
           exists (Collector.init j (resolve_db_path dp p)).
           split; [|done]. rewrite lookup_app_r by done.
           by rewrite Nat.sub_diag.
        -- rewrite lookup_insert_ne by done. intros Hj.
           destruct (Hs j l' Hj) as (c & Hc & Hjob). exists c.
           split; [|done]. by apply lookup_app_l_Some.
      * intros j1 j2 l'. simpl.
        destruct (decide (job = j1)) as [<-|Hne1];
          destruct (decide (job = j2)) as [<-|Hne2];
          rewrite ?lookup_insert_eq, ?lookup_insert_ne by done; try done.
        -- intros [= <-] Hj. specialize (Hfresh _ _ Hj). lia.
        -- intros Hj [= <-]. specialize (Hfresh _ _ Hj). lia.
        -- apply Hi.
      * intros l' c. simpl. intros [Hc|[_ Hc]]%lookup_app_Some.
        -- by eapply Ht.
        -- destruct (l' - length (heap w))%nat; simplify_eq/=. done.
  - destruct (collectors w !! job) as [l|] eqn:Hl.
    + destruct (Hs job l Hl) as (c & Hc & Hjob).
      rewrite (cleanup_collector_known _ _ _ _ _ Hl Hc). split_and!.
      * eapply update_heap_sound; [done|apply flush_job_id| |done].
        intros j l'. by intros [_ ?]%lookup_delete_Some.
      * intros j1 j2 l'. simpl.
        intros [_ ?]%lookup_delete_Some [_ ?]%lookup_delete_Some.
        by eapply Hi.
      * eapply update_heap_thresholds; [done|apply flush_buffer_size|done].
    + by rewrite (cleanup_collector_unknown _ _ _ Hl).
  - split_and!.
    + intros job l Hl. simpl in Hl. by rewrite lookup_empty in Hl.
    + intros j1 j2 l Hl. simpl in Hl. by rewrite lookup_empty in Hl.
    + by apply cleanup_all_thresholds.
  - unfold log_at in Hlog. destruct (heap w !! l) as [c|] eqn:Hl; [|done].
    pose proof (log_step_metrics_job_id hash c (db_at w (db_path c)) r o) as Hj.
    pose proof (log_step_metrics_buffer_size hash c (db_at w (db_path c)) r o)
      as Hb.
    destruct (log_step_metrics hash c _ r o) as [[c' db'] res'].
    simpl in *. simplify_eq. split_and!.
    + eapply update_heap_sound; [done|done|done|done].
    + done.
    + eapply update_heap_thresholds; [done|done|done].
Qed.

(** Witness of X8: the registry after one [get_collector]. *)
Lemma reachable_registry_invariant_witness :
  thresholds_ten (get_collector "aitk_db.db" empty_world "job" None).1.
Proof.
  destruct (reachable_registry_invariant CollectorSpec.sample_hash "aitk_db.db"
              (get_collector "aitk_db.db" empty_world "job" None).1)
    as (_ & _ & H); [|exact H].
  apply reach_get, reach_empty.
Defined.

(** ** [cleanup_all] *)

Lemma heap_flushed_refl h : heap_flushed h h.
Proof. split; [done|]. intros l c Hl. by exists c. Qed.

Lemma heap_flushed_trans h1 h2 h3 :
  heap_flushed h1 h2 → heap_flushed h2 h3 → heap_flushed h1 h3.
Proof.
  intros [Hlen1 H1] [Hlen2 H2]. split; [congruence|].
  intros l c Hl. destruct (H1 l c Hl) as (c' & Hl' & Hj' & Hb').
  destruct (H2 l c' Hl') as (c'' & Hl'' & Hj'' & Hb'').
  exists c''. split_and!; [done|congruence|auto].
Qed.

Lemma flush_ok_buffer c db : buffer (flush c db WriteOk).1 = [].
Proof.
  destruct (decide (buffer c = [])) as [He|Hne].
  - by rewrite (flush_empty _ _ _ He).
  - by rewrite (flush_nonempty _ _ _ Hne).
Qed.

Lemma cleanup_at_flushed w l o : heap_flushed (heap w) (heap (cleanup_at w l o)).
Proof.
  destruct (heap w !! l) as [c|] eqn:Hl.
  - rewrite (cleanup_at_unfold _ _ _ _ Hl). simpl. split.
    + apply length_insert.
    + intros l' c0 Hl'. destruct (decide (l' = l)) as [->|Hne].
      * rewrite list_lookup_insert_eq by (by eapply lookup_lt_Some).
        eexists. split; [done|]. simplify_eq. split; [apply flush_job_id|].
        intros He. by rewrite (flush_empty _ _ _ He).
      * rewrite list_lookup_insert_ne by done. by exists c0.
  - unfold cleanup_at. rewrite Hl. apply heap_flushed_refl.
Qed.

Lemma cleanup_at_ok_buffer w l c :
  heap w !! l = Some c →
  ∃ c', heap (cleanup_at w l WriteOk) !! l = Some c' ∧ buffer c' = [].
Proof.
  intros Hl. rewrite (cleanup_at_unfold _ _ _ _ Hl). simpl.
  rewrite list_lookup_insert_eq by (by eapply lookup_lt_Some).
  eexists. split; [done|]. apply flush_ok_buffer.
Qed.

(** X9.  [cleanup_all] empties the registry and keeps every object.  When
    the registry is sound, the values are yielded for every registered job
    and every write succeeds, the collector of each formerly registered job
    is left with an empty buffer. *)
Theorem cleanup_all_flushes_everything (w : world)
    (order : list (string * write_outcome)) :
  registry_sound w →
  (∀ job, is_Some (collectors w !! job) → job ∈ order.*1) →
  Forall (λ jo, jo.2 = WriteOk) order →
  collectors (cleanup_all w order) = ∅ ∧
  heap_flushed (heap w) (heap (cleanup_all w order)) ∧
  ∀ job l, collectors w !! job = Some l →
    ∃ c, heap (cleanup_all w order) !! l = Some c ∧
         buffer c = [] ∧ job_id c = job.
Proof.
  intros Hsound Hall Hok.
  assert (Hfold : ∀ w0,
    registry_sound w0 →
    let w1 := foldl (λ w jo, match collectors w !! jo.1 with
                             | Some l => cleanup_at w l jo.2
                             | None => w
                             end) w0 order in
    collectors w1 = collectors w0 ∧ heap_flushed (heap w0) (heap w1) ∧
    ∀ job l, job ∈ order.*1 → collectors w0 !! job = Some l →
      ∃ c, heap w1 !! l = Some c ∧ buffer c = []).
  { clear Hsound Hall. induction Hok as [|[j o] order Ho _ IH]; intros w0 Hs0.
    - simpl. split_and!; [done|apply heap_flushed_refl|].
      intros job l Hin. by apply elem_of_nil in Hin.
    - simpl in Ho. subst o. cbn [foldl fst snd].
      set (w2 := match collectors w0 !! j with
                 | Some l => cleanup_at w0 l WriteOk
                 | None => w0
                 end).
      assert (Hc2 : collectors w2 = collectors w0).
      { unfold w2. destruct (collectors w0 !! j); [|done].
        apply cleanup_at_collectors. }
      assert (Hf2 : heap_flushed (heap w0) (heap w2)).
      { unfold w2. destruct (collectors w0 !! j);
          [apply cleanup_at_flushed|apply heap_flushed_refl]. }
      assert (Hs2 : registry_sound w2).
      { unfold w2. destruct (collectors w0 !! j); [|done].
        by apply cleanup_at_sound. }
      destruct (IH w2 Hs2) as (Hc1 & Hf1 & Hb1).
      split_and!; [congruence|by eapply heap_flushed_trans|].
      intros job l Hin Hl. rewrite fmap_cons in Hin. simpl in Hin.
      apply elem_of_cons in Hin as [->|Hin].
      + destruct (Hs0 j l Hl) as (c & Hc & _).
        assert (∃ c', heap w2 !! l = Some c' ∧ buffer c' = [])
          as (c' & Hc' & Hb').
        { unfold w2. rewrite Hl. by eapply cleanup_at_ok_buffer. }
        destruct Hf1 as [_ Hf1].
        destruct (Hf1 l c' Hc') as (c'' & Hc'' & _ & Hb'').
        exists c''. auto.
      + apply (Hb1 job l Hin). by rewrite Hc2. }
  destruct (Hfold w Hsound) as (Hc & Hf & Hb).
  unfold cleanup_all. simpl. split_and!; [done|done|].
  intros job l Hl. destruct (Hb job l (Hall job (mk_is_Some _ _ Hl)) Hl)
    as (c & Hc' & Hbuf).
  exists c. split_and!; [done|done|].
  destruct (Hsound job l Hl) as (c0 & Hc0 & Hj0).
  destruct Hf as [_ Hf]. destruct (Hf l c0 Hc0) as (c1 & Hc1 & Hj1 & _).
  congruence.
Qed.

Lemma two_jobs_world_sound : registry_sound two_jobs_world.
Proof.
  intros job l. unfold two_jobs_world. simpl.
  destruct (decide ("job" = job)) as [<-|Ha].
  - rewrite lookup_insert_eq. intros [= <-]. eexists. split; reflexivity.
  - rewrite lookup_insert_ne by done.
    destruct (decide ("b" = job)) as [<-|Hb].
    + rewrite lookup_insert_eq. intros [= <-]. eexists. split; reflexivity.
    + rewrite lookup_insert_ne by done. by rewrite lookup_empty.
Qed.

(** Witness of X9: two registered jobs, one with nine buffered events. *)
Lemma cleanup_all_flushes_everything_witness :
  ∃ c, heap (cleanup_all two_jobs_world [("job", WriteOk); ("b", WriteOk)])
         !! 0%nat = Some c ∧ buffer c = [] ∧ job_id c = "job".
Proof.
  destruct (cleanup_all_flushes_everything two_jobs_world
              [("job", WriteOk); ("b", WriteOk)]) as (_ & _ & H).
  - apply two_jobs_world_sound.
  - intros job. unfold two_jobs_world. simpl.
    destruct (decide ("job" = job)) as [<-|Ha];
      [intros _; apply list_elem_of_here|].
    rewrite lookup_insert_ne by done.
    destruct (decide ("b" = job)) as [<-|Hb];
      [intros _; apply list_elem_of_further, list_elem_of_here|].
    rewrite lookup_insert_ne by done. rewrite lookup_empty. by intros [? ?].
  - repeat constructor.
  - apply (H "job" 0%nat). reflexivity.
Defined.

(** ** A collector that was released *)

(** X10.  After [cleanup_collector] for a registered job, the next
    [get_collector] for that job constructs a new collector at a new
    address, with an empty buffer; the collector that was registered before
    stays where it was, flushed, and is no longer the one the registry hands
    out. *)
Theorem release_then_get_is_fresh (dp : string) (w : world) (job : string)
    (l : nat) (o : write_outcome) (p : option string) :
  registry_sound w → collectors w !! job = Some l →
  let w1 := cleanup_collector w job o in
  let '(w2, r) := get_collector dp w1 job p in
  r = Some (length (heap w)) ∧ l ≠ length (heap w) ∧
  heap w2 !! length (heap w) =
    Some (Collector.init job (resolve_db_path dp p)) ∧
  ∃ c, heap w !! l = Some c ∧
       heap w2 !! l = Some (flush c (db_at w (db_path c)) o).1.
Proof.
  intros Hsound Hl w1. subst w1.
  destruct (Hsound job l Hl) as (c & Hc & _).
  assert (Hlt : (l < length (heap w))%nat) by by eapply lookup_lt_Some.
  rewrite (cleanup_collector_known _ _ _ _ _ Hl Hc).
  rewrite get_collector_unknown by (simpl; apply lookup_delete_eq).
  simpl. rewrite length_insert.
  split_and!; [done|lia| |].
  - rewrite lookup_app_r by (by rewrite length_insert).
    by rewrite length_insert, Nat.sub_diag.
  - exists c. split; [done|].
    rewrite lookup_app_l by (by rewrite length_insert).
    by rewrite list_lookup_insert_eq.
Qed.

(** Witness of X10: the job with nine buffered events is released, its
    write fails, and the job is requested again. *)
Lemma release_then_get_is_fresh_witness :
  (get_collector "aitk_db.db"
     (cleanup_collector two_jobs_world "job" FailConnect) "job" None).2
  = Some 2%nat.
Proof.
  pose proof (release_then_get_is_fresh "aitk_db.db" two_jobs_world "job"
                0%nat FailConnect None two_jobs_world_sound eq_refl) as H.
  cbv zeta in H.
  destruct (get_collector "aitk_db.db" _ "job" None) as [w2 r].
  destruct H as (H & _). exact H.
Defined.

(** ** Threads inside [get_collector] *)

Lemma thread_sound_mono w w' t :
  (∀ l c, heap w !! l = Some c → heap w' !! l = Some c) →
  (∀ job, is_Some (collectors w !! job) → is_Some (collectors w' !! job)) →
  thread_sound w t → thread_sound w' t.
Proof.
  intros Hheap Hreg. unfold thread_sound. destruct (t_pc t) as [| |l| |r].
  - done.
  - done.
  - intros (c & Hc & Hj). exists c. auto.
  - apply Hreg.
  - intros (l & c & -> & Hc & Hj). exists l, c. auto.
Qed.

Lemma construct_sound dp w job p :
  registry_sound w → registry_sound (construct dp w job p).1.
Proof.
  intros Hs j l Hj. simpl in *. destruct (Hs j l Hj) as (c & Hc & Hjob).
  exists c. split; [|done]. by apply lookup_app_l_Some.
Qed.

Lemma store_sound w job l c :
  heap w !! l = Some c → job_id c = job →
  registry_sound w → registry_sound (store w job l).
Proof.
  intros Hc Hjob Hs j l'. simpl. destruct (decide (job = j)) as [<-|Hne].
  - rewrite lookup_insert_eq. intros [= <-]. by exists c.
  - rewrite lookup_insert_ne by done. apply Hs.
Qed.

(** One action of one thread keeps the invariant. *)
Lemma thread_step_sound dp w t :
  registry_sound w → thread_sound w t →
  registry_sound (thread_step dp w t).1 ∧
  thread_sound (thread_step dp w t).1 (thread_step dp w t).2 ∧
  t_job (thread_step dp w t).2 = t_job t ∧
  (∀ l c, heap w !! l = Some c → heap (thread_step dp w t).1 !! l = Some c) ∧
  (∀ job, is_Some (collectors w !! job) →
          is_Some (collectors (thread_step dp w t).1 !! job)).
Proof.
  intros Hs Ht. unfold thread_step, thread_sound in *.
  destruct (t_pc t) as [| |l| |r] eqn:Hpc.
  - destruct (collectors w !! t_job t) as [l|] eqn:Hl; simpl.
    + split_and!; rewrite ?Hl; done.
    + split_and!; done.
  - simpl. split_and!; try done.
    + by apply construct_sound.
    + exists (Collector.init (t_job t) (resolve_db_path dp (t_db_path t))).
      split; [|done]. rewrite lookup_app_r by done. by rewrite Nat.sub_diag.
    + intros l c Hl. by apply lookup_app_l_Some.
  - destruct Ht as (c & Hc & Hj). simpl. split_and!; try done.
    + by eapply store_sound.
    + by rewrite lookup_insert_eq.
    + intros job. destruct (decide (t_job t = job)) as [<-|Hne].
      * by rewrite lookup_insert_eq.
      * by rewrite lookup_insert_ne.
  - simpl. split_and!; try done.
    destruct Ht as [l Hl]. destruct (Hs _ _ Hl) as (c & Hc & Hj).
    exists l, c. done.
  - simpl. split_and!; try done. by rewrite Hpc.
Qed.

Lemma sched_step_sound dp w ts ts0 i :
  registry_sound w → Forall (thread_sound w) ts →
  Forall2 (λ t0 t, t_job t = t_job t0) ts0 ts →
  registry_sound (sched_step dp (w, ts) i).1 ∧
  Forall (thread_sound (sched_step dp (w, ts) i).1) (sched_step dp (w, ts) i).2 ∧
  Forall2 (λ t0 t, t_job t = t_job t0) ts0 (sched_step dp (w, ts) i).2 ∧
  (length (heap w) ≤ length (heap (sched_step dp (w, ts) i).1))%nat.
Proof.
  intros Hs Hts Hjobs. destruct (ts !! i) as [t|] eqn:Hi.
  - rewrite (sched_step_at _ _ _ _ _ Hi). simpl.
    assert (Ht : thread_sound w t) by (by eapply Forall_lookup_1).
    destruct (thread_step_sound dp w t Hs Ht) as (Hs' & Ht' & Hj' & Hh & Hr).
    split_and!.
    + done.
    + apply Forall_insert; [|done].
      eapply Forall_impl; [exact Hts|]. intros t1. by apply thread_sound_mono.
    + apply Forall2_lookup. intros k.
      destruct (decide (k = i)) as [->|Hne].
      * rewrite list_lookup_insert_eq by (by eapply lookup_lt_Some).
        destruct (ts0 !! i) as [t0|] eqn:H0.
        -- constructor. rewrite Hj'.
           exact (Forall2_lookup_lr _ _ _ _ _ _ Hjobs H0 Hi).
        -- apply (Forall2_length) in Hjobs.
           apply lookup_ge_None in H0. apply lookup_lt_Some in Hi. lia.
      * rewrite list_lookup_insert_ne by done.
        by apply (proj1 (Forall2_lookup _ _ _) Hjobs).
    + destruct (le_lt_dec (length (heap w))
                  (length (heap (thread_step dp w t).1))) as [?|Hlt]; [done|].
      exfalso. destruct (heap w) as [|c h] eqn:Hheap; [simpl in Hlt; lia|].
      assert (Hlast : is_Some ((c :: h) !! length h)).
      { apply lookup_lt_is_Some. simpl. lia. }
      destruct Hlast as [c' Hc']. apply Hh in Hc'.
      apply lookup_lt_Some in Hc'. simpl in Hlt. lia.
  - unfold sched_step. simpl. rewrite Hi. simpl. done.
Qed.

Lemma run_sound dp schedule (n : nat) ts0 w ts :
  registry_sound w → Forall (thread_sound w) ts →
  Forall2 (λ t0 t, t_job t = t_job t0) ts0 ts →
  (n ≤ length (heap w))%nat →
  registry_sound (run dp schedule (w, ts)).1 ∧
  Forall (thread_sound (run dp schedule (w, ts)).1)
         (run dp schedule (w, ts)).2 ∧
  Forall2 (λ t0 t, t_job t = t_job t0) ts0 (run dp schedule (w, ts)).2 ∧
  (n ≤ length (heap (run dp schedule (w, ts)).1))%nat.
Proof.
  revert w ts. induction schedule as [|i schedule IH];
    intros w ts Hs Hts Hjobs Hlen.
  - done.
  - unfold run. cbn [foldl]. fold (run dp schedule (sched_step dp (w, ts) i)).
    destruct (sched_step_sound dp w ts ts0 i Hs Hts Hjobs)
      as (Hs' & Hts' & Hjobs' & Hlen').
    destruct (sched_step dp (w, ts) i) as [w2 ts2].
    simpl in *. apply IH; [done|done|done|lia].
Qed.

(** X11.  Under every schedule of any number of threads that run
    [get_collector], each for a job of its own, from a sound registry: the
    registry stays sound, no object is lost, and a call that has returned
    has returned the address of a collector whose [job_id] is the job it
    asked for; it never returns without a collector. *)
Theorem threads_return_collectors_of_their_job (dp : string)
    (schedule : list nat) (w : world) (ts : list thread) :
  registry_sound w → Forall (thread_sound w) ts →
  let cfg := run dp schedule (w, ts) in
  registry_sound cfg.1 ∧
  (length (heap w) ≤ length (heap cfg.1))%nat ∧
  ∀ i t r, ts !! i = Some t → returned cfg i = Some r →
    ∃ l c, r = Some l ∧ heap cfg.1 !! l = Some c ∧ job_id c = t_job t.
Proof.
  intros Hs Hts cfg.
  assert (Hinv : registry_sound cfg.1 ∧ Forall (thread_sound cfg.1) cfg.2 ∧
                 Forall2 (λ t0 t, t_job t = t_job t0) ts cfg.2 ∧
                 (length (heap w) ≤ length (heap cfg.1))%nat).
  { apply run_sound; [done|done| |done].
    apply Forall2_lookup. intros k. destruct (ts !! k); by constructor. }
  destruct Hinv as (Hs' & Hts' & Hjobs' & Hlen').
  split_and!; [done|done|].
  intros i t r Hi Hret. unfold returned in Hret.
  destruct (cfg.2 !! i) as [t'|] eqn:Hi'; [|done].
  destruct (t_pc t') as [| | | |r'] eqn:Hpc; try done. simplify_eq.
  assert (Ht' : thread_sound cfg.1 t') by (by eapply Forall_lookup_1).
  unfold thread_sound in Ht'. rewrite Hpc in Ht'.
  destruct Ht' as (l & c & -> & Hc & Hj). exists l, c.
  split_and!; [done|done|].
  rewrite Hj. exact (Forall2_lookup_lr _ _ _ _ _ _ Hjobs' Hi Hi').
Qed.

Lemma empty_world_sound : registry_sound empty_world.
Proof. intros job l Hl. simpl in Hl. by rewrite lookup_empty in Hl. Qed.

(** Witness of X11: the second of two racing threads. *)
Lemma threads_return_collectors_of_their_job_witness :
  let cfg :=
    run "aitk_db.db" racing_schedule (empty_world, two_calls "job" None None) in
  ∃ l c, Some 1%nat = Some l ∧ heap cfg.1 !! l = Some c ∧ job_id c = "job".
Proof.
  intros cfg.
  destruct (threads_return_collectors_of_their_job "aitk_db.db"
              racing_schedule empty_world (two_calls "job" None None)
              empty_world_sound) as (_ & _ & H).
  - repeat constructor.
  - apply (H 1%nat (call "job" None) (Some 1%nat)); reflexivity.
Defined.

End ManagerOpsFacts.

(** * Further properties of the configuration store *)

Module DynamicConfigMoreFacts.
Import Py DynamicConfig DynamicConfigSpec DynamicConfigUpdate.
Import DynamicConfigMoreSpec DynamicConfigFacts.

(** ** The getters *)

(** The three getters validate alike. *)
Lemma getter_validate key get s fs default :
  getter key = Some get →
  get s fs default =
  ((validate key (check_and_update s fs).1.1 default),
   (check_and_update s fs).1.2, (check_and_update s fs).2).
Proof.
  unfold getter. intros Hget.
  repeat case_decide; simplify_eq;
    unfold get_sample_every, get_save_every, get_log_every, validate;
    destruct (check_and_update s fs) as [[cfg s'] fs']; simpl;
    destruct (config_get cfg _ default) as [v|e]; try done;
    by destruct v.
Qed.

Lemma check_and_update_cases s fs :
  let p := config_file s in
  (files fs !! p = None ∧
   check_and_update s fs = (CDict ∅, s, log fs (OpExists p))) ∨
  (∃ f, files fs !! p = Some f ∧
        SFleb (mtime f) (last_modified s) = true ∧
        check_and_update s fs =
        (config_cache s, s, log (log fs (OpExists p)) (OpGetmtime p))) ∨
  (∃ f, files fs !! p = Some f ∧
        SFleb (mtime f) (last_modified s) = false ∧
        check_and_update s fs =
        (loaded (content f), set_cache s (mtime f) (loaded (content f)),
         log (log (log (log fs (OpExists p)) (OpGetmtime p)) (OpExists p))
             (OpRead p))).
Proof.
  intros p. subst p. destruct (files fs !! config_file s) as [f|] eqn:Hf.
  - destruct (SFleb (mtime f) (last_modified s)) eqn:Hle.
    + right; left. exists f. split_and!; try done.
      by apply (check_and_update_unchanged _ _ f).
    + right; right. exists f. split_and!; try done.
      by apply (check_and_update_advanced _ _ f).
  - left. split; [done|]. by apply check_and_update_missing.
Qed.

(** X12.  No getter ever writes: the files, the clock and the unwritable
    paths are as before the call, the store keeps its path, and the calls
    added to the trace are [exists], [getmtime] and at most one read. *)
Theorem getters_never_write (key : string)
    (get : dynamic_config → filesystem → value →
           result value * dynamic_config * filesystem)
    (s : dynamic_config) (fs : filesystem) (default : value) :
  getter key = Some get →
  let '(r, s', fs') := get s fs default in
  files fs' = files fs ∧ unwritable fs' = unwritable fs ∧
  clock fs' = clock fs ∧ config_file s' = config_file s ∧
  ∃ ops, trace fs' = trace fs ++ ops ∧
         Forall (λ op, is_write op = false) ops ∧
         (length (List.filter is_read ops) ≤ 1)%nat.
Proof.
  intros Hget. rewrite (getter_validate _ _ _ _ _ Hget).
  destruct (check_and_update_cases s fs)
    as [[_ ->]|[(f & _ & _ & ->)|(f & _ & _ & ->)]]; simpl;
    (split_and!; try done); eexists;
    (split; [by rewrite <- ?app_assoc|]); split;
    try (repeat constructor); simpl; lia.
Qed.

(** Witness of X12: the first check of the store of [job1]. *)
Lemma getters_never_write_witness :
  files (get_log_every job1_store job1_fs PNone).2 = files job1_fs.
Proof.
  pose proof (getters_never_write "log_every" get_log_every job1_store job1_fs
                PNone eq_refl) as H.
  destruct (get_log_every job1_store job1_fs PNone) as [[r s'] fs'].
  destruct H as (H & _). exact H.
Defined.

(** A check right after a check. *)
Lemma check_and_update_again s fs :
  (∀ f, files fs !! config_file s = Some f → SFleb (mtime f) (mtime f) = true) →
  let '(cfg, s1, fs1) := check_and_update s fs in
  (check_and_update s1 fs1).1 = (cfg, s1) ∧
  (is_Some (files fs !! config_file s) →
   trace (check_and_update s1 fs1).2 =
   trace fs1 ++ [OpExists (config_file s); OpGetmtime (config_file s)]) ∧
  (files fs !! config_file s = None →
   trace (check_and_update s1 fs1).2 = trace fs1 ++ [OpExists (config_file s)]).
Proof.
  intros Hnan.
  destruct (check_and_update_cases s fs)
    as [[Hf ->]|[(f & Hf & Hle & ->)|(f & Hf & Hle & ->)]].
  - rewrite check_and_update_missing by done. simpl.
    split_and!; [done| |done]. rewrite Hf. by intros [? ?].
  - rewrite (check_and_update_unchanged _ _ f) by done. simpl.
    split_and!; [done| |by rewrite Hf]. intros _. by rewrite <- app_assoc.
  - rewrite (check_and_update_unchanged _ _ f); simpl; [|done|by apply Hnan].
    split_and!; [done| |by rewrite Hf]. intros _. by rewrite <- app_assoc.
Qed.

(** X13.  A getter called again with no edit in between answers from the
    cache: provided the modification time of the file is a number, the second
    call returns what the first returned, leaves the store as the first left
    it, and asks the file system only whether the file exists and when it
    was modified. *)
Theorem second_get_is_cached (key : string)
    (get : dynamic_config → filesystem → value →
           result value * dynamic_config * filesystem)
    (s : dynamic_config) (fs : filesystem) (default : value) :
  getter key = Some get →
  (∀ f, files fs !! config_file s = Some f → SFleb (mtime f) (mtime f) = true) →
  let '(r1, s1, fs1) := get s fs default in
  let '(r2, s2, fs2) := get s1 fs1 default in
  r2 = r1 ∧ s2 = s1 ∧
  (is_Some (files fs !! config_file s) →
   trace fs2 =
   trace fs1 ++ [OpExists (config_file s); OpGetmtime (config_file s)]) ∧
  (files fs !! config_file s = None →
   trace fs2 = trace fs1 ++ [OpExists (config_file s)]).
Proof.
  intros Hget Hnan. rewrite (getter_validate _ _ _ _ _ Hget).
  pose proof (check_and_update_again s fs Hnan) as H.
  destruct (check_and_update s fs) as [[cfg s1] fs1]. cbn [fst snd].
  rewrite (getter_validate _ _ _ _ _ Hget).
  destruct (check_and_update s1 fs1) as [[cfg2 s2] fs2]. cbn [fst snd] in *.
  destruct H as ([= -> ->] & H2 & H3). done.
Qed.

(** Witness of X13: two calls on the store of [job1]. *)
Lemma second_get_is_cached_witness :
  let '(r1, s1, fs1) := get_sample_every job1_store job1_fs (PInt 250) in
  (get_sample_every s1 fs1 (PInt 250)).1.1 = r1.
Proof.
  pose proof (second_get_is_cached "sample_every" get_sample_every job1_store
                job1_fs (PInt 250) eq_refl) as H.
  destruct (get_sample_every job1_store job1_fs (PInt 250)) as [[r1 s1] fs1].
  destruct (get_sample_every s1 fs1 (PInt 250)) as [[r2 s2] fs2].
  apply H. intros f. vm_compute. by intros [= <-].
Defined.

(** X14.  A file whose document is no mapping makes every getter raise:
    when its modification time is later than the last one observed, the call
    raises [AttributeError] and caches the object, and later calls raise
    again from the cache, without reading, as long as the file is not
    modified. *)
Theorem non_mapping_document_raises (key : string)
    (get : dynamic_config → filesystem → value →
           result value * dynamic_config * filesystem)
    (s : dynamic_config) (fs : filesystem) (f : file) (default : value) :
  getter key = Some get →
  files fs !! config_file s = Some f → content f = YamlOther →
  SFleb (mtime f) (last_modified s) = false →
  let '(r1, s1, fs1) := get s fs default in
  r1 = Raise AttributeError ∧ config_cache s1 = COther ∧
  files fs1 = files fs ∧
  (SFleb (mtime f) (mtime f) = true →
   (get s1 fs1 default).1.1 = Raise AttributeError).
Proof.
  intros Hget Hf Hc Hle. rewrite (getter_validate _ _ _ _ _ Hget).
  rewrite (check_and_update_advanced _ _ f) by done. rewrite Hc. cbn.
  split_and!; try done.
  intros Hself. rewrite (getter_validate _ _ _ _ _ Hget).
  rewrite (check_and_update_unchanged _ _ f); done.
Qed.

(** Witness of X14: the file holds the scalar [hello]. *)
Lemma non_mapping_document_raises_witness :
  (get_sample_every job1_store scalar_fs (PInt 100)).1.1
  = Raise AttributeError.
Proof.
  pose proof (non_mapping_document_raises "sample_every" get_sample_every
                job1_store scalar_fs (File one_pm YamlOther) (PInt 100)
                eq_refl eq_refl eq_refl eq_refl) as H.
  destruct (get_sample_every job1_store scalar_fs (PInt 100)) as [[r s1] fs1].
  destruct H as (H & _). exact H.
Defined.

(** X15.  A file that cannot be read or parsed, or whose document is
    empty, counts as an empty document: when its modification time is later
    than the last one observed, every getter returns the caller's default,
    raises nothing, and the empty dictionary is what the store caches. *)
Theorem unreadable_file_gives_defaults (key : string)
    (get : dynamic_config → filesystem → value →
           result value * dynamic_config * filesystem)
    (s : dynamic_config) (fs : filesystem) (f : file) (default : value) :
  getter key = Some get →
  files fs !! config_file s = Some f →
  content f = YamlError ∨ content f = YamlFalsy →
  SFleb (mtime f) (last_modified s) = false →
  let '(r, s1, fs1) := get s fs default in
  r = Ok default ∧ config_cache s1 = CDict ∅ ∧ last_modified s1 = mtime f.
Proof.
  intros Hget Hf Hc Hle. rewrite (getter_validate _ _ _ _ _ Hget).
  rewrite (check_and_update_advanced _ _ f) by done.
  assert (Hl : loaded (content f) = CDict ∅) by (by destruct Hc as [-> | ->]).
  rewrite Hl. cbn. unfold validate. simpl. rewrite lookup_empty.
  split_and!; try done. by destruct (positive_int default).
Qed.

(** Witness of X15: a file that cannot be parsed. *)
Lemma unreadable_file_gives_defaults_witness :
  (get_save_every job1_store broken_fs (PInt 500)).1.1 = Ok (PInt 500).
Proof.
  pose proof (unreadable_file_gives_defaults "save_every" get_save_every
                job1_store broken_fs (File one_pm YamlError) (PInt 500)
                eq_refl eq_refl (or_introl eq_refl) eq_refl) as H.
  destruct (get_save_every job1_store broken_fs (PInt 500)) as [[r s1] fs1].
  destruct H as (H & _). exact H.
Defined.

(** ** The setter *)

Lemma load_config_document s fs :
  (load_config s fs).1 = document_on_disk s fs ∧
  (is_Some (files fs !! config_file s) →
   files (load_config s fs).2 = files fs) ∧
  unwritable (load_config s fs).2 = unwritable fs ∧
  clock (load_config s fs).2 = clock fs.
Proof.
  unfold document_on_disk.
  destruct (files fs !! config_file s) as [f|] eqn:Hf.
  - rewrite (load_config_existing _ _ f) by done. done.
  - unfold load_config, exists_, ensure_config_file, exists_,
      DynamicConfig.save_config.
    simpl. rewrite Hf.
    rewrite !bool_decide_eq_false_2 by (by intros [? ?]). simpl.
    destruct (bool_decide (config_file s ∈ unwritable fs)) eqn:Hw; simpl.
    + rewrite Hf. split_and!; first [done | by intros [? ?]].
    + rewrite lookup_insert_eq. simpl.
      split_and!; first [done | by intros [? ?]].
Qed.

Lemma update_sample_every_unfold s fs v :
  update_sample_every s fs v =
  if negb (isinstance_int v) || int_le_zero v then (Raise ValueError, fs)
  else match document_on_disk s fs with
       | COther => (Raise TypeError, (load_config s fs).2)
       | CDict d =>
         (Ok tt,
          DynamicConfig.save_config s (load_config s fs).2
            (<["last_updated" := PFloat (clock fs)]>
               (<["sample_every" := v]> d)))
       end.
Proof.
  unfold update_sample_every.
  destruct (negb (isinstance_int v) || int_le_zero v); [done|].
  destruct (load_config_document s fs) as (Hd & _ & _ & Hc).
  destruct (load_config s fs) as [cfg fs1]. simpl in *. subst cfg.
  destruct (document_on_disk s fs); [|done]. by rewrite Hc.
Qed.

(** X16.  When [update_sample_every] raises, no file has changed.  It
    raises [ValueError], before any call to the file system, exactly for a
    value that is no [int] or is not positive; and [TypeError] only when the
    file holds a document that is no mapping. *)
Theorem update_raises_without_writing (s : dynamic_config)
    (fs : filesystem) (v : value) (e : exn) :
  (update_sample_every s fs v).1 = Raise e →
  files (update_sample_every s fs v).2 = files fs ∧
  ((e = ValueError ∧ update_sample_every s fs v = (Raise ValueError, fs) ∧
    (isinstance_int v = false ∨ int_le_zero v = true)) ∨
   (e = TypeError ∧ positive_int v = true ∧
    ∃ f, files fs !! config_file s = Some f ∧ content f = YamlOther)).
Proof.
  rewrite update_sample_every_unfold.
  destruct (isinstance_int v) eqn:Hint; simpl.
  - destruct (int_le_zero v) eqn:Hle; simpl.
    + intros [= <-]. split; [done|]. left. auto.
    + destruct (document_on_disk s fs) as [d|] eqn:Hd; simpl; [done|].
      intros [= <-]. unfold document_on_disk in Hd.
      destruct (files fs !! config_file s) as [f|] eqn:Hf.
      * destruct (load_config_document s fs) as (_ & Hfiles & _).
        split; [by apply Hfiles|]. right. split_and!; [done| |].
        -- unfold positive_int. rewrite Hint. simpl.
           destruct v as [|[]|z| | |]; simplify_eq/=; try done.
           apply Z.ltb_lt. apply Z.leb_gt in Hle. done.
        -- exists f. split; [done|]. by destruct (content f).
      * by destruct (bool_decide _).
  - intros [= <-]. split; [done|]. left. auto.
Qed.

(** Witness of X16: [update_sample_every(-5)]. *)
Lemma update_raises_without_writing_witness :
  files (update_sample_every job1_store job1_fs (PInt (-5))).2 = files job1_fs.
Proof.
  destruct (update_raises_without_writing job1_store job1_fs (PInt (-5))
              ValueError eq_refl) as [H _].
  exact H.
Defined.

Lemma save_after_load_files s fs d :
  config_file s ∉ unwritable fs →
  files (DynamicConfig.save_config s (load_config s fs).2 d) =
  <[config_file s := File (clock fs) (YamlDict d)]> (files fs).
Proof.
  intros Hw. unfold DynamicConfig.save_config.
  destruct (load_config_document s fs) as (_ & Hfiles & Hun & Hclock).
  simpl. rewrite Hun, Hclock. rewrite bool_decide_eq_false_2 by done. simpl.
  destruct (files fs !! config_file s) as [f|] eqn:Hf.
  - by rewrite Hfiles.
  - clear Hfiles.
    unfold load_config, exists_, ensure_config_file, exists_,
      DynamicConfig.save_config.
    simpl. rewrite Hf.
    rewrite !bool_decide_eq_false_2 by (by intros [? ?]). simpl.
    rewrite (bool_decide_eq_false_2 _ Hw). simpl.
    rewrite lookup_insert_eq. simpl. by rewrite insert_insert_eq.
Qed.

Lemma positive_int_accepted v :
  positive_int v = true → negb (isinstance_int v) || int_le_zero v = false.
Proof.
  unfold positive_int. destruct v as [|[]|z| | |]; simpl; try done.
  intros Hz%Z.ltb_lt. by apply Z.leb_gt.
Qed.

(** What a successful update leaves in the file. *)
Lemma update_sample_every_result s fs v d0 :
  positive_int v = true →
  document_on_disk s fs = CDict d0 →
  config_file s ∉ unwritable fs →
  (update_sample_every s fs v).1 = Ok tt ∧
  files (update_sample_every s fs v).2 =
    <[config_file s :=
        File (clock fs)
          (YamlDict (<["last_updated" := PFloat (clock fs)]>
                       (<["sample_every" := v]> d0)))]> (files fs).
Proof.
  intros Hv Hd Hw.
  rewrite update_sample_every_unfold, (positive_int_accepted _ Hv), Hd. simpl.
  split; [done|]. by apply save_after_load_files.
Qed.

(** X17.  For a positive integer, a file that can be written and a
    document that is a mapping (the defaults, when there is no file),
    [update_sample_every] returns normally and leaves in the file the
    document it found with [sample_every] set to the value and
    [last_updated] to the time of the call; every other key keeps its
    value. *)
Theorem update_writes_one_key (s : dynamic_config) (fs : filesystem)
    (v : value) (d0 : gmap string value) :
  positive_int v = true →
  document_on_disk s fs = CDict d0 →
  config_file s ∉ unwritable fs →
  ∃ d, (update_sample_every s fs v).1 = Ok tt ∧
       files (update_sample_every s fs v).2 =
         <[config_file s := File (clock fs) (YamlDict d)]> (files fs) ∧
       d !! "sample_every" = Some v ∧
       d !! "last_updated" = Some (PFloat (clock fs)) ∧
       ∀ k, k ≠ "sample_every" → k ≠ "last_updated" → d !! k = d0 !! k.
Proof.
  intros Hv Hd Hw.
  exists (<["last_updated" := PFloat (clock fs)]> (<["sample_every" := v]> d0)).
  destruct (update_sample_every_result s fs v d0 Hv Hd Hw) as [Hok Hfiles].
  split_and!.
  - done.
  - done.
  - rewrite lookup_insert_ne by done. apply lookup_insert_eq.
  - apply lookup_insert_eq.
  - intros k H1 H2. by rewrite !lookup_insert_ne.
Qed.

(** Witness of X17: [update_sample_every(25)] on the file of [job1]. *)
Lemma update_writes_one_key_witness :
  ∃ d, files (update_sample_every job1_store job1_fs_later (PInt 25)).2
         !! config_file job1_store = Some (File one_pm (YamlDict d)) ∧
       d !! "sample_every" = Some (PInt 25) ∧ d !! "save_every" = Some PNone.
Proof.
  destruct (update_writes_one_key job1_store job1_fs_later (PInt 25)
              (default_config noon) eq_refl eq_refl)
    as (d & _ & Hfiles & Hse & _ & Hother).
  - vm_compute. intros [=].
  - exists d. rewrite Hfiles, lookup_insert_eq. split_and!; [done|done|].
    rewrite Hother by done. reflexivity.
Defined.

(** X18.  A value set with [update_sample_every] is what
    [get_sample_every] returns next, provided the clock at the write is later
    than the modification time the store observed last.  When it is not, the
    store does not look into the file and answers from its cache as before
    the update. *)
Theorem update_then_get (s : dynamic_config) (fs : filesystem)
    (v : value) (d0 : gmap string value) (default : value) :
  positive_int v = true →
  document_on_disk s fs = CDict d0 →
  config_file s ∉ unwritable fs →
  let fs' := (update_sample_every s fs v).2 in
  (SFleb (clock fs) (last_modified s) = false →
   (get_sample_every s fs' default).1.1 = Ok v) ∧
  (SFleb (clock fs) (last_modified s) = true →
   (get_sample_every s fs' default).1.1 =
   validate "sample_every" (config_cache s) default).
Proof.
  intros Hv Hd Hw fs'.
  destruct (update_sample_every_result s fs v d0 Hv Hd Hw) as [_ Hfiles].
  set (d := <["last_updated" := PFloat (clock fs)]>
              (<["sample_every" := v]> d0)) in Hfiles.
  assert (Hse : d !! "sample_every" = Some v).
  { unfold d. rewrite lookup_insert_ne by done. apply lookup_insert_eq. }
  assert (Hf : files fs' !! config_file s =
               Some (File (clock fs) (YamlDict d))).
  { subst fs'. rewrite Hfiles. apply lookup_insert_eq. }
  rewrite (getter_validate "sample_every" get_sample_every) by done.
  split; intros Hle.
  - rewrite (check_and_update_advanced _ _ _ Hf) by done. cbn.
    unfold validate. simpl. by rewrite Hse, Hv.
  - by rewrite (check_and_update_unchanged _ _ _ Hf).
Qed.

(** Witness of X18: the update of one o'clock, after the check of noon. *)
Lemma update_then_get_witness :
  (get_sample_every job1_checked
     (update_sample_every job1_checked job1_fs_later (PInt 25)).2
     (PInt 100)).1.1 = Ok (PInt 25).
Proof.
  destruct (update_then_get job1_checked job1_fs_later (PInt 25)
              (default_config noon) (PInt 100) eq_refl eq_refl) as [H _].
  - vm_compute. intros [=].
  - apply H. reflexivity.
Defined.

End DynamicConfigMoreFacts.

(** * Properties of the command-line tool *)

Module ConfigCLIFacts.
Import Py DynamicConfig DynamicConfigSpec DynamicConfigUpdate ConfigCLI.
Import DynamicConfigMoreSpec DynamicConfigFacts DynamicConfigMoreFacts.

(** ** The command-line tool *)

Section WithEnvironment.

Variable int_of_str : string → option Z.
Variable dir_exists : string → bool.

Lemma get_config_document p fs :
  (get_config p fs).1 =
    match files fs !! p with
    | Some f => match content f with
                | YamlError => None
                | c => Some (loaded c)
                end
    | None => None
    end ∧
  files (get_config p fs).2 = files fs ∧
  unwritable (get_config p fs).2 = unwritable fs ∧
  clock (get_config p fs).2 = clock fs.
Proof.
  unfold get_config, exists_. simpl.
  destruct (files fs !! p) as [f|] eqn:Hf.
  - rewrite bool_decide_eq_true_2 by done. simpl. rewrite ?Hf.
    by destruct (content f).
  - rewrite bool_decide_eq_false_2 by (by intros [? ?]). done.
Qed.

Lemma process_value_shape value v :
  process_value int_of_str value = Some v →
  v = PNone ∨ ∃ z, v = PInt z ∧ 0 < z.
Proof.
  unfold process_value. case_bool_decide; [intros [= <-]; by left|].
  destruct (int_of_str value) as [z|]; [|done].
  destruct (z <=? 0) eqn:Hz; [done|]. intros [= <-]. right. exists z.
  split; [done|]. by apply Z.leb_gt.
Qed.

Lemma set_config_unfold job_dir p fs key value :
  set_config int_of_str dir_exists job_dir p fs key value =
  if negb (bool_decide (key ∈ valid_keys)) then (Ok tt, fs)
  else match process_value int_of_str value with
       | None => (Ok tt, (get_config p fs).2)
       | Some v =>
         match cli_document fs p with
         | COther => (Raise AttributeError, (get_config p fs).2)
         | CDict d =>
           (Ok tt,
            (ConfigCLI.save_config dir_exists job_dir p (get_config p fs).2
               (<[key := v]> d)).2)
         end
       end.
Proof.
  unfold set_config, cli_document.
  destruct (negb (bool_decide (key ∈ valid_keys))); [done|].
  destruct (get_config_document p fs) as (Hd & _).
  destruct (get_config p fs) as [got fs1]. simpl in *. subst got.
  destruct (process_value int_of_str value) as [v|]; [|done].
  destruct (files fs !! p) as [f|]; [|done]. by destruct (content f).
Qed.

(** X19.  [set_config] changes no file when the key is not one of the
    three cadence keys, when the value is neither a word for null nor a
    positive integer, when the job directory does not exist, or when the
    file cannot be written; and when the file holds a document that is no
    mapping it raises [AttributeError] for an accepted value and changes no
    file either.  For a key that is not a cadence key it does not touch the
    file system at all. *)
Theorem set_config_rejections (job_dir p : string) (fs : filesystem)
    (key value : string) :
  key ∉ valid_keys ∨ process_value int_of_str value = None ∨
  dir_exists job_dir = false ∨ p ∈ unwritable fs ∨
  cli_document fs p = COther →
  files (set_config int_of_str dir_exists job_dir p fs key value).2
    = files fs ∧
  (key ∉ valid_keys →
   set_config int_of_str dir_exists job_dir p fs key value = (Ok tt, fs)) ∧
  (key ∈ valid_keys → cli_document fs p = COther →
   is_Some (process_value int_of_str value) →
   (set_config int_of_str dir_exists job_dir p fs key value).1
     = Raise AttributeError).
Proof.
  intros Hcase. rewrite set_config_unfold.
  destruct (get_config_document p fs) as (_ & Hfiles & Hun & _).
  case_bool_decide as Hkey; simpl.
  - split_and!; [|done|].
    + destruct (process_value int_of_str value) as [v|] eqn:Hv; [|done].
      destruct (cli_document fs p) as [d|] eqn:Hd; [|done].
      unfold ConfigCLI.save_config. simpl.
      destruct (dir_exists job_dir) eqn:Hdir; simpl; [|done].
      rewrite Hun. case_bool_decide as Hw; simpl; [done|].
      destruct Hcase as [?|[?|[?|[?|?]]]]; done.
    + intros _ -> [v ->]. done.
  - split_and!; [done|done|done].
Qed.

Lemma valid_key_not_stamp key : key ∈ valid_keys → key ≠ "last_updated".
Proof.
  unfold valid_keys. intros Hk ->.
  repeat (apply elem_of_cons in Hk as [Hk|Hk]; [done|]).
  by apply elem_of_nil in Hk.
Qed.

(** What a successful [set_config] leaves in the file. *)
Lemma set_config_result job_dir p fs key value v d0 :
  key ∈ valid_keys → process_value int_of_str value = Some v →
  dir_exists job_dir = true → p ∉ unwritable fs →
  cli_document fs p = CDict d0 →
  (set_config int_of_str dir_exists job_dir p fs key value).1 = Ok tt ∧
  files (set_config int_of_str dir_exists job_dir p fs key value).2 =
    <[p := File (clock fs)
             (YamlDict (<["last_updated" := PFloat (clock fs)]>
                          (<[key := v]> d0)))]> (files fs).
Proof.
  intros Hkey Hv Hdir Hw Hd.
  rewrite set_config_unfold, Hv, Hd.
  rewrite bool_decide_eq_true_2 by done. simpl.
  destruct (get_config_document p fs) as (_ & Hfiles & Hun & Hclock).
  unfold ConfigCLI.save_config. simpl. rewrite Hdir, Hun, Hclock, Hfiles.
  by rewrite bool_decide_eq_false_2 by done.
Qed.

(** X20.  For a cadence key, an accepted value, an existing job directory,
    a file that can be written and a document that is a mapping (or no
    file), [set_config] leaves in the file the document it found with the key
    set and [last_updated] stamped; every other key keeps its value, and the
    value it writes is null or a positive integer. *)
Theorem set_config_writes_one_key (job_dir p : string) (fs : filesystem)
    (key value : string) (v : Py.value) (d0 : gmap string Py.value) :
  key ∈ valid_keys → process_value int_of_str value = Some v →
  dir_exists job_dir = true → p ∉ unwritable fs →
  cli_document fs p = CDict d0 →
  ∃ d, (set_config int_of_str dir_exists job_dir p fs key value).1
         = Ok tt ∧
       files (set_config int_of_str dir_exists job_dir p fs key value).2 =
         <[p := File (clock fs) (YamlDict d)]> (files fs) ∧
       d !! key = Some v ∧
       d !! "last_updated" = Some (PFloat (clock fs)) ∧
       (∀ k, k ≠ key → k ≠ "last_updated" → d !! k = d0 !! k) ∧
       (v = PNone ∨ ∃ z, v = PInt z ∧ 0 < z).
Proof.
  intros Hkey Hv Hdir Hw Hd.
  exists (<["last_updated" := PFloat (clock fs)]> (<[key := v]> d0)).
  destruct (set_config_result job_dir p fs key value v d0 Hkey Hv Hdir Hw Hd)
    as [Hok Hfiles].
  split_and!; try done.
  - rewrite lookup_insert_ne by (by apply not_eq_sym, valid_key_not_stamp).
    apply lookup_insert_eq.
  - apply lookup_insert_eq.
  - intros k H1 H2. by rewrite !lookup_insert_ne.
  - by eapply process_value_shape.
Qed.

(** X21.  What the tool sets, the store returns: after a successful
    [set_config] on the file of a store, made when the clock is later than
    the modification time the store observed last, the getter of that key
    returns the integer that was set, or the caller's default when the value
    was a word for null. *)
Theorem cli_set_then_store_get (job_dir : string) (s : dynamic_config)
    (fs : filesystem) (key value : string) (v : Py.value)
    (d0 : gmap string Py.value)
    (get : dynamic_config → filesystem → Py.value →
           result Py.value * dynamic_config * filesystem)
    (default : Py.value) :
  getter key = Some get → process_value int_of_str value = Some v →
  dir_exists job_dir = true → config_file s ∉ unwritable fs →
  cli_document fs (config_file s) = CDict d0 →
  SFleb (clock fs) (last_modified s) = false →
  (get s (set_config int_of_str dir_exists job_dir (config_file s) fs
            key value).2 default).1.1
  = Ok match v with PNone => default | _ => v end.
Proof.
  intros Hget Hv Hdir Hw Hd Hle.
  assert (Hkey : key ∈ valid_keys).
  { unfold getter in Hget. unfold valid_keys.
    repeat case_decide; simplify_eq;
      [apply list_elem_of_here
      |apply list_elem_of_further, list_elem_of_here
      |do 2 apply list_elem_of_further; apply list_elem_of_here]. }
  destruct (set_config_result job_dir (config_file s) fs key value v d0
              Hkey Hv Hdir Hw Hd) as [_ Hfiles].
  set (d := <["last_updated" := PFloat (clock fs)]> (<[key := v]> d0))
    in Hfiles.
  assert (Hk : d !! key = Some v).
  { unfold d.
    rewrite lookup_insert_ne by (by apply not_eq_sym, valid_key_not_stamp).
    apply lookup_insert_eq. }
  pose proof (process_value_shape value v Hv) as Hshape.
  rewrite (getter_validate _ _ _ _ _ Hget).
  rewrite (check_and_update_advanced _ _ (File (clock fs) (YamlDict d)));
    [|by rewrite Hfiles, lookup_insert_eq|done].
  cbn. unfold validate. simpl. rewrite Hk.
  destruct Hshape as [->|(z & -> & Hz)]; [done|].
  unfold positive_int. simpl. by rewrite (proj2 (Z.ltb_lt 0 z) Hz).
Qed.

Lemma cli_default_with_stamp now :
  <["last_updated" := PFloat now]> cli_default_config = default_config now.
Proof.
  unfold cli_default_config, default_config. apply map_eq. intros k.
  destruct (decide (k = "last_updated")) as [H1|H1];
    destruct (decide (k = "sample_every")) as [H2|H2];
    destruct (decide (k = "save_every")) as [H3|H3];
    destruct (decide (k = "log_every")) as [H4|H4];
    subst; by simplify_map_eq.
Qed.

(** X22.  Where the job directory exists and the file can be written,
    [create_default_config] writes the very document that the store writes
    for a missing file; but it writes it over an existing file too, while the
    store's [ensure_config_file] leaves an existing file alone. *)
Theorem create_default_config_overwrites (job_dir : string)
    (s : dynamic_config) (fs : filesystem) :
  dir_exists job_dir = true → config_file s ∉ unwritable fs →
  files (create_default_config dir_exists job_dir (config_file s) fs) =
    <[config_file s := File (clock fs) (YamlDict (default_config (clock fs)))]>
      (files fs) ∧
  (files fs !! config_file s = None →
   files (ensure_config_file s fs) =
   files (create_default_config dir_exists job_dir (config_file s) fs)) ∧
  (is_Some (files fs !! config_file s) →
   files (ensure_config_file s fs) = files fs).
Proof.
  intros Hdir Hw.
  assert (Hcreate :
    files (create_default_config dir_exists job_dir (config_file s) fs) =
    <[config_file s := File (clock fs) (YamlDict (default_config (clock fs)))]>
      (files fs)).
  { unfold create_default_config, ConfigCLI.save_config. simpl.
    rewrite Hdir. simpl. rewrite bool_decide_eq_false_2 by done. simpl.
    by rewrite cli_default_with_stamp. }
  split_and!; [done| |].
  - intros Hf. rewrite Hcreate.
    unfold ensure_config_file, exists_, DynamicConfig.save_config. simpl.
    rewrite Hf. rewrite bool_decide_eq_false_2 by (by intros [? ?]). simpl.
    by rewrite bool_decide_eq_false_2 by done.
  - intros Hf. unfold ensure_config_file, exists_. simpl.
    by rewrite bool_decide_eq_true_2 by done.
Qed.

End WithEnvironment.

(** Witness of X19: [set sample_every -5]. *)
Lemma set_config_rejections_witness :
  files (set_config sample_int_of_str any_dir "/out/job1"
           "/out/job1/dynamic_config.yaml" job1_fs_later "sample_every" "-5").2
  = files job1_fs_later.
Proof.
  destruct (set_config_rejections sample_int_of_str any_dir "/out/job1"
              "/out/job1/dynamic_config.yaml" job1_fs_later "sample_every" "-5")
    as (H & _); [|exact H].
  right; left. reflexivity.
Defined.

(** Witness of X20: [set save_every 50]. *)
Lemma set_config_writes_one_key_witness :
  ∃ d, files (set_config sample_int_of_str any_dir "/out/job1"
                "/out/job1/dynamic_config.yaml" job1_fs_later
                "save_every" "50").2 !! "/out/job1/dynamic_config.yaml"
       = Some (File one_pm (YamlDict d)) ∧
       d !! "save_every" = Some (PInt 50) ∧
       d !! "sample_every" = Some (PInt 100).
Proof.
  destruct (set_config_writes_one_key sample_int_of_str any_dir "/out/job1"
              "/out/job1/dynamic_config.yaml" job1_fs_later "save_every" "50"
              (PInt 50) (default_config noon))
    as (d & _ & Hfiles & Hk & _ & Hother & _).
  - unfold valid_keys. apply list_elem_of_further, list_elem_of_here.
  - reflexivity.
  - reflexivity.
  - vm_compute. intros [=].
  - reflexivity.
  - exists d. rewrite Hfiles, lookup_insert_eq. split_and!; [done|done|].
    rewrite Hother by done. reflexivity.
Defined.

(** Witness of X21: [set sample_every none], then the store is asked. *)
Lemma cli_set_then_store_get_witness :
  (get_sample_every job1_checked
     (set_config sample_int_of_str any_dir "/out/job1"
        (config_file job1_checked) job1_fs_later "sample_every" "None").2
     (PInt 250)).1.1 = Ok (PInt 250).
Proof.
  apply (cli_set_then_store_get sample_int_of_str any_dir "/out/job1"
           job1_checked job1_fs_later "sample_every" "None" PNone
           (default_config noon) get_sample_every (PInt 250)).
  - reflexivity.
  - reflexivity.
  - reflexivity.
  - vm_compute. intros [=].
  - reflexivity.
  - reflexivity.
Defined.

(** Witness of X22: the defaults written over the file of [job1]. *)
Lemma create_default_config_overwrites_witness :
  files (create_default_config any_dir "/out/job1"
           (config_file job1_store) job1_fs_later)
    !! config_file job1_store
  = Some (File one_pm (YamlDict (default_config one_pm))).
Proof.
  destruct (create_default_config_overwrites any_dir "/out/job1" job1_store
              job1_fs_later) as (H & _).
  - reflexivity.
  - vm_compute. intros [=].
  - rewrite H. apply lookup_insert_eq.
Defined.

End ConfigCLIFacts.
